(** * flow/embedded_views.h: mutators, mutator stacks, embedded view
      parameters, view slices and the external view embedder.

    A shallow embedding of the classes declared in
    [engine/src/flutter/flow/embedded_views.h], followed by the properties
    proved about them.  The drawing primitives ([DlRect], [DlMatrix],
    [DlRegion], ...) come from the display-list library and are used here
    through an interface ([Geometry]); an instance over the rationals is
    given for the worked scenarios. *)

From Stdlib Require Import ZArith QArith Qcanon Qround Lia.
From Stdlib Require Import Strings.Byte.
From stdpp Require Import base decidable option list numbers.

Set Default Proof Using "Type".

(** ** Failures

    [std::get] on the wrong alternative of a variant and popping an empty
    vector do not return normally.  Fallible operations return a [result]. *)

Inductive Error : Set :=
  | TypeMismatch
  | EmptyStack.

Inductive result (A : Type) : Type :=
  | Ok (a : A)
  | Err (e : Error).
Arguments Ok {A} a.
Arguments Err {A} e.

Definition result_bind {A B} (r : result A) (k : A -> result B) : result B :=
  match r with
  | Ok a => k a
  | Err e => Err e
  end.

Definition result_map {A B} (f : A -> B) (r : result A) : result B :=
  result_bind r (fun a => Ok (f a)).

#[global] Instance Error_eq_dec : EqDecision Error.
Proof. solve_decision. Defined.

#[global] Instance result_eq_dec {A} `{EqDecision A} : EqDecision (result A).
Proof. solve_decision. Defined.

(** The two results are failures alike, or both returned and the values are
    related. *)
Definition results_agree {A} (R : A -> A -> Prop) (r r' : result A) : Prop :=
  match r, r' with
  | Ok a, Ok a' => R a a'
  | Err e, Err e' => e = e'
  | _, _ => False
  end.

(** ** Shared ownership

    A [std::shared_ptr<T>] is an object identity together with the object it
    points to.  The objects held this way in this file are never written
    after they are made, so the pointee is carried with the pointer.
    [make_shared] draws the identity from an allocation counter that is
    threaded through every operation that allocates. *)

Record shared_ptr (T : Type) : Type := SharedPtr {
  address : nat;
  pointee : T
}.
Arguments SharedPtr {T} address pointee.
Arguments address {T} s.
Arguments pointee {T} s.

Definition Alloc (A : Type) : Type := nat -> A * nat.

Definition alloc_ret {A} (a : A) : Alloc A := fun next => (a, next).

Definition alloc_bind {A B} (m : Alloc A) (k : A -> Alloc B) : Alloc B :=
  fun next => let '(a, next') := m next in k a next'.

Definition make_shared {T} (v : T) : Alloc (shared_ptr T) :=
  fun next => (SharedPtr next v, S next).

Declare Scope alloc_scope.
Delimit Scope alloc_scope with alloc.
Notation "'let*' x ':=' m 'in' k" := (alloc_bind m (fun x => k))
  (at level 10, x name, m at level 100, k at level 200) : alloc_scope.

(** ** The drawing primitives used as payloads *)

(** Modelled from the spec: the [operator==] of a payload type, defined in
    the geometry and display-list libraries.  It is a "deep value
    comparison": symmetric and transitive.  It is not taken to hold of a
    value and itself, nor to hold of identical values only: the payloads are
    made of floating-point scalars, where a coordinate that is not a number
    differs from itself. *)
Record PayloadEq (T : Type) : Type := MkPayloadEq {
  equals : T -> T -> bool;
  equals_sym : forall a b, equals a b = equals b a;
  equals_trans :
    forall a b c, equals a b = true -> equals b c = true -> equals a c = true
}.
Arguments MkPayloadEq {T} equals equals_sym equals_trans.
Arguments equals {T} p a b.
Arguments equals_sym {T} p a b.
Arguments equals_trans {T} p a b c.

(** The comparison of a type without such values: identity. *)
Definition identity_eq (T : Type) `{EqDecision T} : PayloadEq T.
Proof.
  refine (MkPayloadEq (fun a b => bool_decide (a = b)) _ _).
  - intros a b. by apply bool_decide_ext.
  - intros a b c. rewrite !bool_decide_eq_true. congruence.
Defined.

Class Geometry : Type := {
  DlScalar : Type;
  DlRect : Type;
  DlIRect : Type;
  DlSize : Type;
  DlRoundRect : Type;
  DlRoundSuperellipse : Type;
  DlPath : Type;
  DlMatrix : Type;
  DlImageFilter : Type;
  DlRegion : Type;
  (* operator== of DlRect, DlSize, ... *)
  DlRect_eq : PayloadEq DlRect;
  DlSize_eq : PayloadEq DlSize;
  DlRoundRect_eq : PayloadEq DlRoundRect;
  DlRoundSuperellipse_eq : PayloadEq DlRoundSuperellipse;
  DlPath_eq : PayloadEq DlPath;
  DlMatrix_eq : PayloadEq DlMatrix;
  DlImageFilter_eq : PayloadEq DlImageFilter;
  (* DlRect::MakeSize *)
  MakeSize : DlSize -> DlRect;
  (* DlRect::TransformAndClipBounds *)
  TransformAndClipBounds : DlRect -> DlMatrix -> DlRect;
  (* DlRoundSuperellipse::ToApproximateRoundRect *)
  ToApproximateRoundRect : DlRoundSuperellipse -> DlRoundRect;
  (* DlColor::toOpacity *)
  toOpacity : byte -> DlScalar;
  (* DlIRect::RoundOut *)
  RoundOut : DlRect -> DlIRect;
  (* DlRegion::DlRegion(const DlIRect&) *)
  MakeRegion : DlIRect -> DlRegion;
  (* DlRegion::MakeIntersection *)
  MakeIntersection : DlRegion -> DlRegion -> DlRegion
}.

#[global] Instance byte_eq_decision : EqDecision byte := byte_eq_dec.

Section Flow.
Context `{!Geometry}.

(** ** MutatorType *)

Inductive MutatorType : Set :=
  | kClipRect
  | kClipRRect
  | kClipRSE
  | kClipPath
  | kTransform
  | kOpacity
  | kBackdropFilter.

(** The enumerators in declaration order: the enumerator at position [i] has
    the value [i]. *)
Definition MutatorType_enumerators : list MutatorType :=
  [kClipRect; kClipRRect; kClipRSE; kClipPath; kTransform; kOpacity;
   kBackdropFilter].

(** [static_cast<MutatorType>(i)].  An [i] that is no enumerator's value
    does not occur below; it is sent to the last enumerator. *)
Definition static_cast_MutatorType (i : nat) : MutatorType :=
  nth i MutatorType_enumerators kBackdropFilter.

(** ** ImageFilterMutation *)

Record ImageFilterMutation : Type := MkImageFilterMutation {
  filter_ : shared_ptr DlImageFilter;
  filter_rect_ : DlRect
}.

Definition GetFilter (f : ImageFilterMutation) : DlImageFilter :=
  pointee (filter_ f).

Definition GetFilterRect (f : ImageFilterMutation) : DlRect :=
  filter_rect_ f.

(** [ImageFilterMutation::operator==]: the filters are compared through the
    pointers. *)
Definition ImageFilterMutation_eq (a b : ImageFilterMutation) : bool :=
  equals DlImageFilter_eq (pointee (filter_ a)) (pointee (filter_ b))
  && equals DlRect_eq (filter_rect_ a) (filter_rect_ b).

Definition ImageFilterMutation_neq (a b : ImageFilterMutation) : bool :=
  negb (ImageFilterMutation_eq a b).

(** ** Mutator *)

(** The [std::variant] held in [Mutator::data_], alternatives in the order
    of the declaration. *)
Inductive MutatorData : Type :=
  | alt_DlRect (rect : DlRect)
  | alt_DlRoundRect (rrect : DlRoundRect)
  | alt_DlRoundSuperellipse (rse : DlRoundSuperellipse)
  | alt_DlPath (path : DlPath)
  | alt_DlMatrix (matrix : DlMatrix)
  | alt_uint8_t (alpha : byte)
  | alt_ImageFilterMutation (mutation : ImageFilterMutation).

(** [std::variant::index] *)
Definition variant_index (d : MutatorData) : nat :=
  match d with
  | alt_DlRect _ => 0
  | alt_DlRoundRect _ => 1
  | alt_DlRoundSuperellipse _ => 2
  | alt_DlPath _ => 3
  | alt_DlMatrix _ => 4
  | alt_uint8_t _ => 5
  | alt_ImageFilterMutation _ => 6
  end.

(** [operator==] of [std::variant]: the same alternative, holding values
    that their own [operator==] takes for equal. *)
Definition variant_eq (a b : MutatorData) : bool :=
  match a, b with
  | alt_DlRect x, alt_DlRect y => equals DlRect_eq x y
  | alt_DlRoundRect x, alt_DlRoundRect y => equals DlRoundRect_eq x y
  | alt_DlRoundSuperellipse x, alt_DlRoundSuperellipse y =>
      equals DlRoundSuperellipse_eq x y
  | alt_DlPath x, alt_DlPath y => equals DlPath_eq x y
  | alt_DlMatrix x, alt_DlMatrix y => equals DlMatrix_eq x y
  | alt_uint8_t x, alt_uint8_t y => bool_decide (x = y)
  | alt_ImageFilterMutation x, alt_ImageFilterMutation y =>
      ImageFilterMutation_eq x y
  | _, _ => false
  end.

Record Mutator : Type := MkMutator { data_ : MutatorData }.

Definition Mutator_copy (other : Mutator) : Mutator :=
  MkMutator (data_ other).
Definition Mutator_DlRect (rect : DlRect) : Mutator :=
  MkMutator (alt_DlRect rect).
Definition Mutator_DlRoundRect (rrect : DlRoundRect) : Mutator :=
  MkMutator (alt_DlRoundRect rrect).
Definition Mutator_DlRoundSuperellipse (rrect : DlRoundSuperellipse)
  : Mutator :=
  MkMutator (alt_DlRoundSuperellipse rrect).
Definition Mutator_DlPath (path : DlPath) : Mutator :=
  MkMutator (alt_DlPath path).
Definition Mutator_DlMatrix (matrix : DlMatrix) : Mutator :=
  MkMutator (alt_DlMatrix matrix).
Definition Mutator_alpha (alpha : byte) : Mutator :=
  MkMutator (alt_uint8_t alpha).
Definition Mutator_filter (filter : shared_ptr DlImageFilter)
    (filter_rect : DlRect) : Mutator :=
  MkMutator (alt_ImageFilterMutation (MkImageFilterMutation filter filter_rect)).

Definition GetType (m : Mutator) : MutatorType :=
  static_cast_MutatorType (variant_index (data_ m)).

(** The typed accessors: [std::get<T>] throws when [T] is not the
    alternative held. *)
Definition GetRect (m : Mutator) : result DlRect :=
  match data_ m with alt_DlRect r => Ok r | _ => Err TypeMismatch end.

Definition GetRRect (m : Mutator) : result DlRoundRect :=
  match data_ m with alt_DlRoundRect r => Ok r | _ => Err TypeMismatch end.

Definition GetRSE (m : Mutator) : result DlRoundSuperellipse :=
  match data_ m with
  | alt_DlRoundSuperellipse r => Ok r
  | _ => Err TypeMismatch
  end.

Definition GetRSEApproximation (m : Mutator) : result DlRoundRect :=
  result_map ToApproximateRoundRect (GetRSE m).

Definition GetPath (m : Mutator) : result DlPath :=
  match data_ m with alt_DlPath p => Ok p | _ => Err TypeMismatch end.

Definition GetMatrix (m : Mutator) : result DlMatrix :=
  match data_ m with alt_DlMatrix x => Ok x | _ => Err TypeMismatch end.

Definition GetFilterMutation (m : Mutator) : result ImageFilterMutation :=
  match data_ m with
  | alt_ImageFilterMutation f => Ok f
  | _ => Err TypeMismatch
  end.

Definition GetAlpha (m : Mutator) : result byte :=
  match data_ m with alt_uint8_t a => Ok a | _ => Err TypeMismatch end.

Definition GetAlphaFloat (m : Mutator) : result DlScalar :=
  result_map toOpacity (GetAlpha m).

Definition Mutator_eq (m other : Mutator) : bool :=
  variant_eq (data_ m) (data_ other).

Definition Mutator_neq (m other : Mutator) : bool :=
  negb (Mutator_eq m other).

Definition IsClipType (m : Mutator) : bool :=
  match GetType m with
  | kClipRect | kClipPath | kClipRRect | kClipRSE => true
  | kOpacity | kTransform | kBackdropFilter => false
  end.

(** Equality of two mutators as the words "structural (deep value
    comparison including the filter object and its region)" have it: both
    were constructed from the same kind of payload, and the payloads are
    equal by their own [operator==]; the pointer a filter is held through
    does not count. *)
Inductive value_equal : Mutator -> Mutator -> Prop :=
  | value_equal_rect r r' :
      equals DlRect_eq r r' = true ->
      value_equal (Mutator_DlRect r) (Mutator_DlRect r')
  | value_equal_rrect r r' :
      equals DlRoundRect_eq r r' = true ->
      value_equal (Mutator_DlRoundRect r) (Mutator_DlRoundRect r')
  | value_equal_rse r r' :
      equals DlRoundSuperellipse_eq r r' = true ->
      value_equal (Mutator_DlRoundSuperellipse r)
                  (Mutator_DlRoundSuperellipse r')
  | value_equal_path p p' :
      equals DlPath_eq p p' = true ->
      value_equal (Mutator_DlPath p) (Mutator_DlPath p')
  | value_equal_matrix x x' :
      equals DlMatrix_eq x x' = true ->
      value_equal (Mutator_DlMatrix x) (Mutator_DlMatrix x')
  | value_equal_alpha a :
      value_equal (Mutator_alpha a) (Mutator_alpha a)
  | value_equal_filter (a a' : nat) f f' r r' :
      equals DlImageFilter_eq f f' = true ->
      equals DlRect_eq r r' = true ->
      value_equal (Mutator_filter (SharedPtr a f) r)
                  (Mutator_filter (SharedPtr a' f') r').

(** Whether a mutator equals itself. *)
Definition self_equal (m : Mutator) : bool := Mutator_eq m m.

(** The typed accessors, named, with the tag each one is for. *)
Inductive Accessor : Set :=
  | AGetRect | AGetRRect | AGetRSE | AGetRSEApproximation | AGetPath
  | AGetMatrix | AGetFilterMutation | AGetAlpha | AGetAlphaFloat.

Definition accessor_tag (a : Accessor) : MutatorType :=
  match a with
  | AGetRect => kClipRect
  | AGetRRect => kClipRRect
  | AGetRSE | AGetRSEApproximation => kClipRSE
  | AGetPath => kClipPath
  | AGetMatrix => kTransform
  | AGetFilterMutation => kBackdropFilter
  | AGetAlpha | AGetAlphaFloat => kOpacity
  end.

(** Whether the accessor returned, and the failure when it did not. *)
Definition outcome {A} (r : result A) : option Error :=
  match r with Ok _ => None | Err e => Some e end.

Definition invoke (a : Accessor) (m : Mutator) : option Error :=
  match a with
  | AGetRect => outcome (GetRect m)
  | AGetRRect => outcome (GetRRect m)
  | AGetRSE => outcome (GetRSE m)
  | AGetRSEApproximation => outcome (GetRSEApproximation m)
  | AGetPath => outcome (GetPath m)
  | AGetMatrix => outcome (GetMatrix m)
  | AGetFilterMutation => outcome (GetFilterMutation m)
  | AGetAlpha => outcome (GetAlpha m)
  | AGetAlphaFloat => outcome (GetAlphaFloat m)
  end.

#[global] Instance MutatorType_eq_dec : EqDecision MutatorType.
Proof. solve_decision. Defined.

(** ** MutatorsStack *)

Record MutatorsStack : Type := MkMutatorsStack {
  vector_ : list (shared_ptr Mutator)
}.

(** [MutatorsStack() = default] *)
Definition MutatorsStack_new : MutatorsStack := MkMutatorsStack [].

(** [vector_.push_back(element)] *)
Definition push_back (element : shared_ptr Mutator) (s : MutatorsStack)
  : MutatorsStack :=
  MkMutatorsStack (vector_ s ++ [element]).

(** Modelled from the spec: the seven [Push...] members of [MutatorsStack]
    are declared in this header and defined out of it.  Each "appends a new
    immutable Mutator", held by shared ownership. *)
Definition push_new (m : Mutator) (s : MutatorsStack) : Alloc MutatorsStack :=
  (let* element := make_shared m in alloc_ret (push_back element s))%alloc.

(** Modelled from the spec: [MutatorsStack::PushClipRect] and the six
    members after it, each appending the [Mutator] made from its
    arguments. *)
Definition PushClipRect (rect : DlRect) : MutatorsStack -> Alloc MutatorsStack :=
  push_new (Mutator_DlRect rect).
Definition PushClipRRect (rrect : DlRoundRect)
  : MutatorsStack -> Alloc MutatorsStack :=
  push_new (Mutator_DlRoundRect rrect).
Definition PushClipRSE (rrect : DlRoundSuperellipse)
  : MutatorsStack -> Alloc MutatorsStack :=
  push_new (Mutator_DlRoundSuperellipse rrect).
Definition PushClipPath (path : DlPath) : MutatorsStack -> Alloc MutatorsStack :=
  push_new (Mutator_DlPath path).
Definition PushTransform (matrix : DlMatrix)
  : MutatorsStack -> Alloc MutatorsStack :=
  push_new (Mutator_DlMatrix matrix).
Definition PushOpacity (alpha : byte) : MutatorsStack -> Alloc MutatorsStack :=
  push_new (Mutator_alpha alpha).
Definition PushBackdropFilter (filter : shared_ptr DlImageFilter)
    (filter_rect : DlRect) : MutatorsStack -> Alloc MutatorsStack :=
  push_new (Mutator_filter filter filter_rect).

(** A push with its arguments, the [Mutator] it constructs, and a sequence
    of pushes made one after the other. *)
Inductive Push : Type :=
  | ClipRect (rect : DlRect)
  | ClipRRect (rrect : DlRoundRect)
  | ClipRSE (rrect : DlRoundSuperellipse)
  | ClipPath (path : DlPath)
  | Transform (matrix : DlMatrix)
  | Opacity (alpha : byte)
  | BackdropFilter (filter : shared_ptr DlImageFilter) (filter_rect : DlRect).

Definition push (p : Push) : MutatorsStack -> Alloc MutatorsStack :=
  match p with
  | ClipRect rect => PushClipRect rect
  | ClipRRect rrect => PushClipRRect rrect
  | ClipRSE rrect => PushClipRSE rrect
  | ClipPath path => PushClipPath path
  | Transform matrix => PushTransform matrix
  | Opacity alpha => PushOpacity alpha
  | BackdropFilter filter filter_rect => PushBackdropFilter filter filter_rect
  end.

Definition pushed_mutator (p : Push) : Mutator :=
  match p with
  | ClipRect rect => Mutator_DlRect rect
  | ClipRRect rrect => Mutator_DlRoundRect rrect
  | ClipRSE rrect => Mutator_DlRoundSuperellipse rrect
  | ClipPath path => Mutator_DlPath path
  | Transform matrix => Mutator_DlMatrix matrix
  | Opacity alpha => Mutator_alpha alpha
  | BackdropFilter filter filter_rect => Mutator_filter filter filter_rect
  end.

Fixpoint push_all (ps : list Push) (s : MutatorsStack) : Alloc MutatorsStack :=
  match ps with
  | [] => alloc_ret s
  | p :: ps' => (let* s' := push p s in push_all ps' s')%alloc
  end.

(** Modelled from the spec: [MutatorsStack::Pop] is declared in this header
    and defined out of it.  It "removes and destroys the most recently pushed
    entry (precondition: non-empty; otherwise fails with EmptyStack)". *)
Definition Pop (s : MutatorsStack) : result MutatorsStack :=
  match vector_ s with
  | [] => Err EmptyStack
  | _ :: _ => Ok (MkMutatorsStack (removelast (vector_ s)))
  end.

Definition is_empty (s : MutatorsStack) : bool :=
  match vector_ s with [] => true | _ :: _ => false end.

Definition stack_count (s : MutatorsStack) : nat := length (vector_ s).

(** Modelled from the spec: [MutatorsStack::PopTo] is declared in this header
    and defined out of it.  It "removes entries until exactly n remain":
    a loop of [Pop].  [None] is the loop running out of [fuel]. *)
Fixpoint PopTo_loop (fuel : nat) (n : nat) (s : MutatorsStack)
  : option (result MutatorsStack) :=
  if decide (stack_count s = n) then Some (Ok s)
  else
    match fuel with
    | 0 => None
    | S fuel' =>
        match Pop s with
        | Ok s' => PopTo_loop fuel' n s'
        | Err e => Some (Err e)
        end
    end.

Definition PopTo (n : nat) (s : MutatorsStack) : option (result MutatorsStack) :=
  PopTo_loop (S (stack_count s)) n s.

(** [for (size_t i = 0; i < n; i++) { if (differs(i)) return false; }
     return true;], entered at [i] with [remaining = n - i]. *)
Fixpoint none_differs (differs : nat -> bool) (i remaining : nat) : bool :=
  match remaining with
  | 0 => true
  | S remaining' =>
      if differs i then false else none_differs differs (S i) remaining'
  end.

(** [*vector_[i] != *other.vector_[i]].  Both indices are in range where the
    loop runs, the sizes having been compared first. *)
Definition differs_at_stack (v other : list (shared_ptr Mutator)) (i : nat)
  : bool :=
  match v !! i, other !! i with
  | Some x, Some y => Mutator_neq (pointee x) (pointee y)
  | _, _ => true
  end.

(** [*vector_[i] != other[i]] *)
Definition differs_at_vector (v : list (shared_ptr Mutator))
    (other : list Mutator) (i : nat) : bool :=
  match v !! i, other !! i with
  | Some x, Some y => Mutator_neq (pointee x) y
  | _, _ => true
  end.

(** [bool operator==(const MutatorsStack& other) const] *)
Definition MutatorsStack_eq (s other : MutatorsStack) : bool :=
  if negb (length (vector_ s) =? length (vector_ other))%nat then false
  else
    none_differs (differs_at_stack (vector_ s) (vector_ other)) 0
      (length (vector_ s)).

(** [bool operator==(const std::vector<Mutator>& other) const] *)
Definition MutatorsStack_eq_vector (s : MutatorsStack) (other : list Mutator)
  : bool :=
  if negb (length (vector_ s) =? length other)%nat then false
  else
    none_differs (differs_at_vector (vector_ s) other) 0 (length (vector_ s)).

Definition MutatorsStack_neq (s other : MutatorsStack) : bool :=
  negb (MutatorsStack_eq s other).

Definition MutatorsStack_neq_vector (s : MutatorsStack) (other : list Mutator)
  : bool :=
  negb (MutatorsStack_eq_vector s other).

(** The pointers a run of pushes makes, the first one at [next]. *)
Definition fresh_pointers (next : nat) (ps : list Push)
  : list (shared_ptr Mutator) :=
  imap (fun i p => SharedPtr (next + i) (pushed_mutator p)) ps.

(** [Mutator::operator==] along two sequences of mutators of the same
    length. *)
Fixpoint all_equal (ms ms' : list Mutator) : bool :=
  match ms, ms' with
  | [], [] => true
  | m :: ms, m' :: ms' => Mutator_eq m m' && all_equal ms ms'
  | _, _ => false
  end.

(** The two stacks hold, position by position, mutators that are equal as
    values. *)
Definition equal_by_value (s other : MutatorsStack) : Prop :=
  Forall2 (fun x y => value_equal (pointee x) (pointee y))
          (vector_ s) (vector_ other).

Definition equal_by_value_vector (s : MutatorsStack) (other : list Mutator)
  : Prop :=
  Forall2 (fun x y => value_equal (pointee x) y) (vector_ s) other.

(** The two stacks hold, position by position, [Mutator]s that
    [Mutator::operator==] takes for equal. *)
Definition elementwise_equal (s other : MutatorsStack) : Prop :=
  Forall2 (fun x y => Mutator_eq (pointee x) (pointee y) = true)
          (vector_ s) (vector_ other).

Definition elementwise_equal_vector (s : MutatorsStack) (other : list Mutator)
  : Prop :=
  Forall2 (fun x y => Mutator_eq (pointee x) y = true) (vector_ s) other.

(** ** EmbeddedViewParams *)

Record EmbeddedViewParams : Type := MkEmbeddedViewParams {
  matrix_ : DlMatrix;
  size_points_ : DlSize;
  mutators_stack_ : MutatorsStack;
  final_bounding_rect_ : DlRect
}.

Definition EmbeddedViewParams_new (matrix : DlMatrix) (size_points : DlSize)
    (mutators_stack : MutatorsStack) : EmbeddedViewParams :=
  {| matrix_ := matrix;
     size_points_ := size_points;
     mutators_stack_ := mutators_stack;
     final_bounding_rect_ :=
       TransformAndClipBounds (MakeSize size_points) matrix |}.

Definition transformMatrix (p : EmbeddedViewParams) : DlMatrix := matrix_ p.
Definition sizePoints (p : EmbeddedViewParams) : DlSize := size_points_ p.
Definition mutatorsStack (p : EmbeddedViewParams) : MutatorsStack :=
  mutators_stack_ p.
Definition finalBoundingRect (p : EmbeddedViewParams) : DlRect :=
  final_bounding_rect_ p.

Definition PushImageFilter (filter : shared_ptr DlImageFilter)
    (filter_rect : DlRect) (p : EmbeddedViewParams)
  : Alloc EmbeddedViewParams :=
  (let* stack := PushBackdropFilter filter filter_rect (mutators_stack_ p) in
   alloc_ret {| matrix_ := matrix_ p;
                size_points_ := size_points_ p;
                mutators_stack_ := stack;
                final_bounding_rect_ := final_bounding_rect_ p |})%alloc.

Definition EmbeddedViewParams_eq (p other : EmbeddedViewParams) : bool :=
  equals DlSize_eq (size_points_ p) (size_points_ other)
  && MutatorsStack_eq (mutators_stack_ p) (mutators_stack_ other)
  && equals DlRect_eq (final_bounding_rect_ p) (final_bounding_rect_ other)
  && equals DlMatrix_eq (matrix_ p) (matrix_ other).

(** ** EmbedderViewSlice *)

(** The pure virtual members, supplied by the deriving class [Slice].
    [getRegion] has no region to give before the recording has ended. *)
Class EmbedderViewSlice (Slice Canvas : Type) : Type := {
  canvas : Slice -> option Canvas;
  end_recording : Slice -> Slice;
  getRegion : Slice -> option DlRegion;
  render_into : Slice -> Canvas -> Canvas
}.

Definition region {Slice Canvas} `{!EmbedderViewSlice Slice Canvas}
    (s : Slice) (query : DlRect) : option DlRegion :=
  let rquery := MakeRegion (RoundOut query) in
  full ← getRegion s;
  Some (MakeIntersection full rquery).

End Flow.

(** ** ExternalViewEmbedder *)

Inductive PostPrerollResult : Set :=
  | kSuccess
  | kResubmitFrame
  | kSkipAndRetryFrame.

Section Embedder.
Context `{!Geometry}.
(** Collaborators that are handed through without being looked at. *)
Context {GrDirectContext RasterThreadMerger AiksContext SurfaceFrame
         DlCanvas DlISize : Type}.
(** The state of the class deriving from [ExternalViewEmbedder]. *)
Context {Derived : Type}.

(** [used_this_frame_] is private to the base class; everything else an
    embedder holds belongs to the deriving class. *)
Record ExternalViewEmbedder : Type := MkExternalViewEmbedder {
  used_this_frame_ : bool;
  derived_ : Derived
}.

(** The members whose bodies the header does not give: the pure virtual
    ones, and those only declared here.  The bodies act on the deriving
    class's state; they cannot name [used_this_frame_], and are taken not to
    call [SetUsedThisFrame]. *)
Class EmbedderOverrides : Type := {
  CollectView_body : Z -> Derived -> Derived;
  GetRootCanvas_body : Derived -> option DlCanvas * Derived;
  CancelFrame_body : Derived -> Derived;
  BeginFrame_body :
    option GrDirectContext -> option RasterThreadMerger -> Derived -> Derived;
  PrerollCompositeEmbeddedView_body :
    Z -> EmbeddedViewParams -> Derived -> Derived;
  CompositeEmbeddedView_body : Z -> Derived -> option DlCanvas * Derived;
  PrepareFlutterView_body : DlISize -> DlScalar -> Derived -> Derived;
  SubmitFlutterView_body :
    Z -> option GrDirectContext -> option AiksContext -> SurfaceFrame ->
    Derived -> Derived;
  SupportsDynamicThreadMerging_body : Derived -> bool * Derived;
  Teardown_body : Derived -> Derived
}.
Context {overrides : EmbedderOverrides}.

(** [ExternalViewEmbedder() = default], with [used_this_frame_ = false]. *)
Definition ExternalViewEmbedder_new (d : Derived) : ExternalViewEmbedder :=
  {| used_this_frame_ := false; derived_ := d |}.

Definition in_derived (f : Derived -> Derived) (e : ExternalViewEmbedder)
  : ExternalViewEmbedder :=
  {| used_this_frame_ := used_this_frame_ e; derived_ := f (derived_ e) |}.

Definition in_derived_returning {A} (f : Derived -> A * Derived)
    (e : ExternalViewEmbedder) : A * ExternalViewEmbedder :=
  let '(a, d) := f (derived_ e) in
  (a, {| used_this_frame_ := used_this_frame_ e; derived_ := d |}).

Definition CollectView (view_id : Z) : ExternalViewEmbedder -> ExternalViewEmbedder :=
  in_derived (CollectView_body view_id).

Definition GetRootCanvas
  : ExternalViewEmbedder -> option DlCanvas * ExternalViewEmbedder :=
  in_derived_returning GetRootCanvas_body.

Definition CancelFrame : ExternalViewEmbedder -> ExternalViewEmbedder :=
  in_derived CancelFrame_body.

Definition BeginFrame (context : option GrDirectContext)
    (raster_thread_merger : option RasterThreadMerger)
  : ExternalViewEmbedder -> ExternalViewEmbedder :=
  in_derived (BeginFrame_body context raster_thread_merger).

Definition PrerollCompositeEmbeddedView (platform_view_id : Z)
    (params : EmbeddedViewParams)
  : ExternalViewEmbedder -> ExternalViewEmbedder :=
  in_derived (PrerollCompositeEmbeddedView_body platform_view_id params).

Definition PostPrerollAction (raster_thread_merger : option RasterThreadMerger)
    (e : ExternalViewEmbedder) : PostPrerollResult * ExternalViewEmbedder :=
  (kSuccess, e).

Definition CompositeEmbeddedView (platform_view_id : Z)
  : ExternalViewEmbedder -> option DlCanvas * ExternalViewEmbedder :=
  in_derived_returning (CompositeEmbeddedView_body platform_view_id).

Definition PrepareFlutterView (frame_size : DlISize)
    (device_pixel_ratio : DlScalar)
  : ExternalViewEmbedder -> ExternalViewEmbedder :=
  in_derived (PrepareFlutterView_body frame_size device_pixel_ratio).

Definition SubmitFlutterView (flutter_view_id : Z)
    (context : option GrDirectContext) (aiks_context : option AiksContext)
    (frame : SurfaceFrame) : ExternalViewEmbedder -> ExternalViewEmbedder :=
  in_derived (SubmitFlutterView_body flutter_view_id context aiks_context frame).

Definition EndFrame (should_resubmit_frame : bool)
    (raster_thread_merger : option RasterThreadMerger)
    (e : ExternalViewEmbedder) : ExternalViewEmbedder :=
  e.

Definition SupportsDynamicThreadMerging
  : ExternalViewEmbedder -> bool * ExternalViewEmbedder :=
  in_derived_returning SupportsDynamicThreadMerging_body.

Definition Teardown : ExternalViewEmbedder -> ExternalViewEmbedder :=
  in_derived Teardown_body.

Definition SetUsedThisFrame (used_this_frame : bool)
    (e : ExternalViewEmbedder) : ExternalViewEmbedder :=
  {| used_this_frame_ := used_this_frame; derived_ := derived_ e |}.

Definition GetUsedThisFrame (e : ExternalViewEmbedder) : bool :=
  used_this_frame_ e.

Definition PushVisitedPlatformView (platform_view_id : Z)
    (e : ExternalViewEmbedder) : ExternalViewEmbedder :=
  e.

Definition PushFilterToVisitedPlatformViews
    (filter : shared_ptr DlImageFilter) (filter_rect : DlRect)
    (e : ExternalViewEmbedder) : ExternalViewEmbedder :=
  e.

(** A call made on an embedder by its user, and a sequence of calls run
    from left to right. *)
Inductive Call : Type :=
  | CallCollectView (view_id : Z)
  | CallGetRootCanvas
  | CallCancelFrame
  | CallBeginFrame (context : option GrDirectContext)
      (raster_thread_merger : option RasterThreadMerger)
  | CallPrerollCompositeEmbeddedView (platform_view_id : Z)
      (params : EmbeddedViewParams)
  | CallPostPrerollAction (raster_thread_merger : option RasterThreadMerger)
  | CallCompositeEmbeddedView (platform_view_id : Z)
  | CallPrepareFlutterView (frame_size : DlISize) (device_pixel_ratio : DlScalar)
  | CallSubmitFlutterView (flutter_view_id : Z)
      (context : option GrDirectContext) (aiks_context : option AiksContext)
      (frame : SurfaceFrame)
  | CallEndFrame (should_resubmit_frame : bool)
      (raster_thread_merger : option RasterThreadMerger)
  | CallSupportsDynamicThreadMerging
  | CallTeardown
  | CallSetUsedThisFrame (used_this_frame : bool)
  | CallGetUsedThisFrame
  | CallPushVisitedPlatformView (platform_view_id : Z)
  | CallPushFilterToVisitedPlatformViews (filter : shared_ptr DlImageFilter)
      (filter_rect : DlRect).

Definition run_call (c : Call) (e : ExternalViewEmbedder)
  : ExternalViewEmbedder :=
  match c with
  | CallCollectView view_id => CollectView view_id e
  | CallGetRootCanvas => snd (GetRootCanvas e)
  | CallCancelFrame => CancelFrame e
  | CallBeginFrame context merger => BeginFrame context merger e
  | CallPrerollCompositeEmbeddedView id params =>
      PrerollCompositeEmbeddedView id params e
  | CallPostPrerollAction merger => snd (PostPrerollAction merger e)
  | CallCompositeEmbeddedView id => snd (CompositeEmbeddedView id e)
  | CallPrepareFlutterView frame_size ratio =>
      PrepareFlutterView frame_size ratio e
  | CallSubmitFlutterView id context aiks frame =>
      SubmitFlutterView id context aiks frame e
  | CallEndFrame resubmit merger => EndFrame resubmit merger e
  | CallSupportsDynamicThreadMerging => snd (SupportsDynamicThreadMerging e)
  | CallTeardown => Teardown e
  | CallSetUsedThisFrame b => SetUsedThisFrame b e
  | CallGetUsedThisFrame => let _ := GetUsedThisFrame e in e
  | CallPushVisitedPlatformView id => PushVisitedPlatformView id e
  | CallPushFilterToVisitedPlatformViews filter filter_rect =>
      PushFilterToVisitedPlatformViews filter filter_rect e
  end.

Definition run_calls (calls : list Call) (e : ExternalViewEmbedder)
  : ExternalViewEmbedder :=
  foldl (fun e c => run_call c e) e calls.

(** What [GetUsedThisFrame] answers after each call of a sequence. *)
Fixpoint used_after_each (calls : list Call) (e : ExternalViewEmbedder)
  : list bool :=
  match calls with
  | [] => []
  | c :: calls' =>
      let e' := run_call c e in
      GetUsedThisFrame e' :: used_after_each calls' e'
  end.

(** The value given to the last [SetUsedThisFrame] of a sequence, [start]
    when there is none. *)
Definition last_set (start : bool) (calls : list Call) : bool :=
  foldl (fun b c =>
           match c with CallSetUsedThisFrame b' => b' | _ => b end)
        start calls.

Definition sets_flag (c : Call) : bool :=
  match c with CallSetUsedThisFrame _ => true | _ => false end.

(** One frame as the sequence of calls
    [BeginFrame], [PrerollCompositeEmbeddedView]*, [PostPrerollAction],
    ([PrepareFlutterView] [SubmitFlutterView])*, [EndFrame]. *)
Record FlutterViewSubmission : Type := MkFlutterViewSubmission {
  sub_frame_size : DlISize;
  sub_device_pixel_ratio : DlScalar;
  sub_flutter_view_id : Z;
  sub_context : option GrDirectContext;
  sub_aiks_context : option AiksContext;
  sub_frame : SurfaceFrame
}.

Definition preroll_calls (views : list (Z * EmbeddedViewParams)) : list Call :=
  (fun v => CallPrerollCompositeEmbeddedView (fst v) (snd v)) <$> views.

Definition submission_calls (subs : list FlutterViewSubmission) : list Call :=
  subs ≫= (fun s =>
    [CallPrepareFlutterView (sub_frame_size s) (sub_device_pixel_ratio s);
     CallSubmitFlutterView (sub_flutter_view_id s) (sub_context s)
       (sub_aiks_context s) (sub_frame s)]).

Definition frame_body_calls (views : list (Z * EmbeddedViewParams))
    (merger : option RasterThreadMerger) (subs : list FlutterViewSubmission)
  : list Call :=
  preroll_calls views ++ [CallPostPrerollAction merger] ++ submission_calls subs.

Definition frame_calls (context : option GrDirectContext)
    (merger : option RasterThreadMerger)
    (views : list (Z * EmbeddedViewParams))
    (subs : list FlutterViewSubmission) (should_resubmit_frame : bool)
  : list Call :=
  [CallBeginFrame context merger]
  ++ frame_body_calls views merger subs
  ++ [CallEndFrame should_resubmit_frame merger].

(** The frame as the comment above the class asks its user to drive it:
    [SetUsedThisFrame(true)] follows [BeginFrame], and the flag is put back
    to false around [EndFrame]. *)
Definition driven_frame_calls (context : option GrDirectContext)
    (merger : option RasterThreadMerger)
    (views : list (Z * EmbeddedViewParams))
    (subs : list FlutterViewSubmission) (should_resubmit_frame : bool)
  : list Call :=
  [CallBeginFrame context merger; CallSetUsedThisFrame true]
  ++ frame_body_calls views merger subs
  ++ [CallSetUsedThisFrame false; CallEndFrame should_resubmit_frame merger].

End Embedder.
Arguments ExternalViewEmbedder : clear implicits.
Arguments EmbedderOverrides {_} _ _ _ _ _ _ _.
Arguments Call {_} _ _ _ _.
Arguments FlutterViewSubmission {_} _ _ _ _.

(** ** The drawing primitives over the rationals

    The display-list geometry works on floating-point scalars.  The instance
    below takes exact rationals for them, and a 2D affine map for the
    matrix.  Every rational is a number: here [operator==] of a payload is
    identity. *)

Module Rational.
Local Open Scope Qc_scope.

Definition Qc_of_Z (z : Z) : Qc := Q2Qc (inject_Z z).

Definition Qc_min (a b : Qc) : Qc :=
  match a ?= b with Gt => b | _ => a end.

Definition Qc_max (a b : Qc) : Qc :=
  match a ?= b with Lt => b | _ => a end.

Definition Qc_floor (a : Qc) : Z := Qfloor (this a).
Definition Qc_ceiling (a : Qc) : Z := Qceiling (this a).

Record Point : Set := MkPoint { px : Qc; py : Qc }.

Record Size : Set := MkSize { width : Qc; height : Qc }.

Record Rect : Set := LTRB { left_ : Qc; top_ : Qc; right_ : Qc; bottom_ : Qc }.

Record IRect : Set := ILTRB { ileft : Z; itop : Z; iright : Z; ibottom : Z }.

(** [x' = xx * x + xy * y + tx], [y' = yx * x + yy * y + ty] *)
Record Matrix : Set := MkMatrix {
  m_xx : Qc; m_xy : Qc; m_tx : Qc;
  m_yx : Qc; m_yy : Qc; m_ty : Qc
}.

Record RoundRect : Set := MkRoundRect { rr_bounds : Rect; rr_radius : Qc }.

Record RoundSuperellipse : Set :=
  MkRoundSuperellipse { rse_bounds : Rect; rse_radius : Qc }.

Definition Path : Set := list Point.

Inductive ImageFilter : Set :=
  | BlurFilter (sigma_x sigma_y : Qc).

(** A region is kept as the rectangles it is the union of. *)
Definition Region : Set := list IRect.

#[global] Instance Point_eq_dec : EqDecision Point.
Proof. solve_decision. Defined.
#[global] Instance Size_eq_dec : EqDecision Size.
Proof. solve_decision. Defined.
#[global] Instance Rect_eq_dec : EqDecision Rect.
Proof. solve_decision. Defined.
#[global] Instance IRect_eq_dec : EqDecision IRect.
Proof. solve_decision. Defined.
#[global] Instance Matrix_eq_dec : EqDecision Matrix.
Proof. solve_decision. Defined.
#[global] Instance RoundRect_eq_dec : EqDecision RoundRect.
Proof. solve_decision. Defined.
#[global] Instance RoundSuperellipse_eq_dec : EqDecision RoundSuperellipse.
Proof. solve_decision. Defined.
#[global] Instance ImageFilter_eq_dec : EqDecision ImageFilter.
Proof. solve_decision. Defined.

Definition MakeTranslation (tx ty : Qc) : Matrix :=
  MkMatrix 1 0 tx 0 1 ty.

Definition MakeLTRB (l t r b : Z) : Rect :=
  LTRB (Qc_of_Z l) (Qc_of_Z t) (Qc_of_Z r) (Qc_of_Z b).

(** Modelled from the spec: [DlRect::MakeSize] is defined in the geometry
    library.  It gives "Rect(0,0,size)". *)
Definition Rect_MakeSize (s : Size) : Rect :=
  LTRB 0 0 (width s) (height s).

Definition transform_point (m : Matrix) (p : Point) : Point :=
  MkPoint (m_xx m * px p + m_xy m * py p + m_tx m)
          (m_yx m * px p + m_yy m * py p + m_ty m).

Definition corners (r : Rect) : list Point :=
  [MkPoint (left_ r) (top_ r); MkPoint (right_ r) (top_ r);
   MkPoint (left_ r) (bottom_ r); MkPoint (right_ r) (bottom_ r)].

Definition expand_to (r : Rect) (p : Point) : Rect :=
  LTRB (Qc_min (left_ r) (px p)) (Qc_min (top_ r) (py p))
       (Qc_max (right_ r) (px p)) (Qc_max (bottom_ r) (py p)).

Definition point_bounds (ps : list Point) : Rect :=
  match ps with
  | [] => LTRB 0 0 0 0
  | p :: ps' => foldl expand_to (LTRB (px p) (py p) (px p) (py p)) ps'
  end.

(** Modelled from the spec: [DlRect::TransformAndClipBounds] is defined in
    the geometry library.  It is "transform(Rect(0,0,size))", "a bounds
    transform": the bounds of the four transformed corners.  Over the
    rationals and affine maps there are no unrepresentable extents to clip
    against. *)
Definition Rect_TransformAndClipBounds (r : Rect) (m : Matrix) : Rect :=
  point_bounds (transform_point m <$> corners r).

(** Modelled from the spec: [DlIRect::RoundOut] is defined in the geometry
    library.  It rounds "outward to the smallest enclosing integer
    rectangle". *)
Definition IRect_RoundOut (r : Rect) : IRect :=
  ILTRB (Qc_floor (left_ r)) (Qc_floor (top_ r))
        (Qc_ceiling (right_ r)) (Qc_ceiling (bottom_ r)).

Definition IRect_IsEmpty (r : IRect) : bool :=
  negb ((ileft r <? iright r)%Z && (itop r <? ibottom r)%Z).

(** The unit cell with corner [(x, y)] lies in the rectangle. *)
Definition IRect_contains (r : IRect) (x y : Z) : bool :=
  (ileft r <=? x)%Z && (x <? iright r)%Z
  && (itop r <=? y)%Z && (y <? ibottom r)%Z.

Definition IRect_intersection (a b : IRect) : IRect :=
  ILTRB (Z.max (ileft a) (ileft b)) (Z.max (itop a) (itop b))
        (Z.min (iright a) (iright b)) (Z.min (ibottom a) (ibottom b)).

Definition Region_contains (g : Region) (x y : Z) : bool :=
  existsb (fun r => IRect_contains r x y) g.

Definition Region_isEmpty (g : Region) : bool :=
  forallb IRect_IsEmpty g.

(** Modelled from the spec: [DlRegion] is defined in the display-list
    library; a region is a "set of rectangles".  The region of one
    rectangle, and the intersection of two regions. *)
Definition Region_of_IRect (r : IRect) : Region := [r].

(** Modelled from the spec: [DlRegion::MakeIntersection], the rectangles
    two regions have in common. *)
Definition Region_MakeIntersection (a b : Region) : Region :=
  ra ← a; rb ← b; [IRect_intersection ra rb].

(** Modelled from the spec: [DlRegion::MakeUnion]. *)
Definition Region_MakeUnion (a b : Region) : Region := a ++ b.

(** The integer rectangle [i] encloses [r]; [a] lies within [b]. *)
Definition IRect_encloses (i : IRect) (r : Rect) : Prop :=
  Qc_of_Z (ileft i) <= left_ r /\ Qc_of_Z (itop i) <= top_ r
  /\ right_ r <= Qc_of_Z (iright i) /\ bottom_ r <= Qc_of_Z (ibottom i).

Definition IRect_within (a b : IRect) : Prop :=
  (ileft b <= ileft a /\ itop b <= itop a
   /\ iright a <= iright b /\ ibottom a <= ibottom b)%Z.

(** Modelled from the spec: [DlColor::toOpacity] is defined in the
    display-list library.  It gives the alpha "normalized to [0,1]". *)
Definition Color_toOpacity (alpha : byte) : Qc :=
  Qc_of_Z (Z.of_N (Byte.to_N alpha)) / Qc_of_Z 255.

(** Modelled from the spec: [DlRoundSuperellipse::ToApproximateRoundRect]
    is defined in the geometry library.  It gives "a rounded-rect
    over-approximation of the rounded-superellipse". *)
Definition RoundSuperellipse_ToApproximateRoundRect (r : RoundSuperellipse)
  : RoundRect :=
  MkRoundRect (rse_bounds r) (rse_radius r).

#[local] Instance geometry : Geometry := {|
  DlScalar := Qc;
  DlRect := Rect;
  DlIRect := IRect;
  DlSize := Size;
  DlRoundRect := RoundRect;
  DlRoundSuperellipse := RoundSuperellipse;
  DlPath := Path;
  DlMatrix := Matrix;
  DlImageFilter := ImageFilter;
  DlRegion := Region;
  DlRect_eq := identity_eq Rect;
  DlSize_eq := identity_eq Size;
  DlRoundRect_eq := identity_eq RoundRect;
  DlRoundSuperellipse_eq := identity_eq RoundSuperellipse;
  DlPath_eq := identity_eq Path;
  DlMatrix_eq := identity_eq Matrix;
  DlImageFilter_eq := identity_eq ImageFilter;
  MakeSize := Rect_MakeSize;
  TransformAndClipBounds := Rect_TransformAndClipBounds;
  ToApproximateRoundRect := RoundSuperellipse_ToApproximateRoundRect;
  toOpacity := Color_toOpacity;
  RoundOut := IRect_RoundOut;
  MakeRegion := Region_of_IRect;
  MakeIntersection := Region_MakeIntersection
|}.

(** *** DisplayListEmbedderViewSlice *)

(** Modelled from the spec: [DisplayListBuilder] and [DisplayList] are
    defined in the display-list library.  The builder takes drawing
    operations, here the rectangles drawn; the display list is the "immutable
    recorded artifact" baked from them, and its region is the "set of
    rectangles actually drawn into". *)
Record DisplayListBuilder : Set := MkDisplayListBuilder {
  builder_bounds : Rect;
  builder_ops : list Rect
}.

Record DisplayList : Set := MkDisplayList {
  dl_ops : list Rect
}.

(** Modelled from the spec: drawing a rectangle into the builder, baking
    the display list, replaying a display list into a builder, and the
    region a display list touches. *)
Definition DrawRect (rect : Rect) (b : DisplayListBuilder)
  : DisplayListBuilder :=
  MkDisplayListBuilder (builder_bounds b) (builder_ops b ++ [rect]).

Definition Build (b : DisplayListBuilder) : DisplayList :=
  MkDisplayList (builder_ops b).

Definition DrawDisplayList (dl : DisplayList) (b : DisplayListBuilder)
  : DisplayListBuilder :=
  MkDisplayListBuilder (builder_bounds b) (builder_ops b ++ dl_ops dl).

Definition DisplayList_region (dl : DisplayList) : Region :=
  foldl (fun g r => Region_MakeUnion g (Region_of_IRect (IRect_RoundOut r)))
        [] (dl_ops dl).

Record DisplayListEmbedderViewSlice : Set := MkDisplayListEmbedderViewSlice {
  builder_ : option DisplayListBuilder;
  display_list_ : option DisplayList
}.

(** Modelled from the spec: the members of [DisplayListEmbedderViewSlice]
    are declared in this header and defined out of it.  The slice "backs
    canvas() with a display-list builder and, on end_recording, bakes an
    immutable display-list artifact and releases the builder; is_empty()
    reports whether any drawing occurred; recording_ended() reports current
    phase".  A second [end_recording] is left unspecified there: here it
    changes nothing. *)
Definition DisplayListEmbedderViewSlice_new (view_bounds : Rect)
  : DisplayListEmbedderViewSlice :=
  {| builder_ := Some (MkDisplayListBuilder view_bounds []);
     display_list_ := None |}.

Definition slice_canvas (s : DisplayListEmbedderViewSlice)
  : option DisplayListBuilder :=
  builder_ s.

Definition slice_end_recording (s : DisplayListEmbedderViewSlice)
  : DisplayListEmbedderViewSlice :=
  match builder_ s with
  | Some b => {| builder_ := None; display_list_ := Some (Build b) |}
  | None => s
  end.

Definition slice_getRegion (s : DisplayListEmbedderViewSlice) : option Region :=
  DisplayList_region <$> display_list_ s.

Definition slice_render_into (s : DisplayListEmbedderViewSlice)
    (target : DisplayListBuilder) : DisplayListBuilder :=
  match display_list_ s with
  | Some dl => DrawDisplayList dl target
  | None => target
  end.

Definition slice_is_empty (s : DisplayListEmbedderViewSlice) : bool :=
  match display_list_ s, builder_ s with
  | Some dl, _ => bool_decide (dl_ops dl = [])
  | None, Some b => bool_decide (builder_ops b = [])
  | None, None => true
  end.

Definition slice_recording_ended (s : DisplayListEmbedderViewSlice) : bool :=
  bool_decide (builder_ s = None).

(** Drawing through [canvas()]: "once end_recording is called, no further
    drawing is accepted". *)
Definition slice_draw (rect : Rect) (s : DisplayListEmbedderViewSlice)
  : DisplayListEmbedderViewSlice :=
  match slice_canvas s with
  | Some b =>
      {| builder_ := Some (DrawRect rect b); display_list_ := display_list_ s |}
  | None => s
  end.

Definition slice_draw_all (rects : list Rect) (s : DisplayListEmbedderViewSlice)
  : DisplayListEmbedderViewSlice :=
  foldl (fun s r => slice_draw r s) s rects.

#[global] Instance DisplayListEmbedderViewSlice_slice
  : EmbedderViewSlice DisplayListEmbedderViewSlice DisplayListBuilder := {|
  canvas := slice_canvas;
  end_recording := slice_end_recording;
  getRegion := slice_getRegion;
  render_into := slice_render_into
|}.

(** An embedder whose deriving class keeps no state and whose overriding
    bodies do nothing. *)
Definition idle_overrides
  : EmbedderOverrides unit unit unit unit unit unit unit := {|
  CollectView_body := fun _ d => d;
  GetRootCanvas_body := fun d => (None, d);
  CancelFrame_body := fun d => d;
  BeginFrame_body := fun _ _ d => d;
  PrerollCompositeEmbeddedView_body := fun _ _ d => d;
  CompositeEmbeddedView_body := fun _ d => (None, d);
  PrepareFlutterView_body := fun _ _ d => d;
  SubmitFlutterView_body := fun _ _ _ _ d => d;
  SupportsDynamicThreadMerging_body := fun d => (false, d);
  Teardown_body := fun d => d
|}.

End Rational.

(** ** Rectangles that may hold a coordinate that is not a number

    The rationals above with one more rectangle, standing for the
    rectangles of which a coordinate is not a number. *)

Module NotANumber.
Import Rational.

Inductive FloatRect : Set :=
  | NumberRect (r : Rect)
  | NaNRect.

(** Modelled from the spec: [operator==] of [DlRect], defined in the
    geometry library, compares the coordinates; a coordinate that is not a
    number differs from every coordinate, itself included. *)
Definition FloatRect_equals (a b : FloatRect) : bool :=
  match a, b with
  | NumberRect r, NumberRect r' => bool_decide (r = r')
  | _, _ => false
  end.

Definition FloatRect_eq : PayloadEq FloatRect.
Proof.
  refine (MkPayloadEq FloatRect_equals _ _).
  - intros [a|] [b|]; simpl; try reflexivity. by apply bool_decide_ext.
  - intros [a|] [b|] [c|]; simpl; try discriminate.
    rewrite !bool_decide_eq_true. congruence.
Defined.

(** The operations on rectangles, as over the rationals where the
    coordinates are numbers.  What they give on [NaNRect] plays no part
    below. *)
Definition FloatRect_MakeSize (s : Size) : FloatRect :=
  NumberRect (Rect_MakeSize s).

Definition FloatRect_TransformAndClipBounds (r : FloatRect) (m : Matrix)
  : FloatRect :=
  match r with
  | NumberRect r => NumberRect (Rect_TransformAndClipBounds r m)
  | NaNRect => NaNRect
  end.

Definition FloatRect_RoundOut (r : FloatRect) : IRect :=
  match r with
  | NumberRect r => IRect_RoundOut r
  | NaNRect => ILTRB 0 0 0 0
  end.

#[local] Instance geometry : Geometry := {|
  DlScalar := Qc;
  DlRect := FloatRect;
  DlIRect := IRect;
  DlSize := Size;
  DlRoundRect := RoundRect;
  DlRoundSuperellipse := RoundSuperellipse;
  DlPath := Path;
  DlMatrix := Matrix;
  DlImageFilter := ImageFilter;
  DlRegion := Region;
  DlRect_eq := FloatRect_eq;
  DlSize_eq := identity_eq Size;
  DlRoundRect_eq := identity_eq RoundRect;
  DlRoundSuperellipse_eq := identity_eq RoundSuperellipse;
  DlPath_eq := identity_eq Path;
  DlMatrix_eq := identity_eq Matrix;
  DlImageFilter_eq := identity_eq ImageFilter;
  MakeSize := FloatRect_MakeSize;
  TransformAndClipBounds := FloatRect_TransformAndClipBounds;
  ToApproximateRoundRect := RoundSuperellipse_ToApproximateRoundRect;
  toOpacity := Color_toOpacity;
  RoundOut := FloatRect_RoundOut;
  MakeRegion := Region_of_IRect;
  MakeIntersection := Region_MakeIntersection
|}.

End NotANumber.

(** ** Readers and users of the classes above

    Notions used to state how the members above work together. *)

Section Clients.
Context `{!Geometry}.

(** A reader of a [Mutator] that switches on [GetType], reads the payload
    with the accessor of that type and constructs a [Mutator] from what it
    read.  [GetFilter] gives the filter, not the pointer to it: the reader
    holds the filter through a pointer of its own. *)
Definition reconstruct (m : Mutator) : Alloc (result Mutator) :=
  match GetType m with
  | kClipRect => alloc_ret (result_map Mutator_DlRect (GetRect m))
  | kClipRRect => alloc_ret (result_map Mutator_DlRoundRect (GetRRect m))
  | kClipRSE => alloc_ret (result_map Mutator_DlRoundSuperellipse (GetRSE m))
  | kClipPath => alloc_ret (result_map Mutator_DlPath (GetPath m))
  | kTransform => alloc_ret (result_map Mutator_DlMatrix (GetMatrix m))
  | kOpacity => alloc_ret (result_map Mutator_alpha (GetAlpha m))
  | kBackdropFilter =>
      match GetFilterMutation m with
      | Ok f =>
          (let* filter := make_shared (GetFilter f) in
           alloc_ret (Ok (Mutator_filter filter (GetFilterRect f))))%alloc
      | Err e => alloc_ret (Err e)
      end
  end.

(** The accessors that read the alternative held, one for each type. *)
Definition basic_accessors : list Accessor :=
  [AGetRect; AGetRRect; AGetRSE; AGetPath; AGetMatrix; AGetFilterMutation;
   AGetAlpha].

Definition returns (a : Accessor) (m : Mutator) : bool :=
  bool_decide (invoke a m = None).

(** The types of the entries of a stack, in order. *)
Definition stack_types (s : MutatorsStack) : list MutatorType :=
  (fun entry => GetType (pointee entry)) <$> vector_ s.

(** [PushImageFilter] called once for each filter of a list, in order. *)
Fixpoint push_image_filters (fs : list (shared_ptr DlImageFilter * DlRect))
    (p : EmbeddedViewParams) : Alloc EmbeddedViewParams :=
  match fs with
  | [] => alloc_ret p
  | f :: fs' =>
      (let* p' := PushImageFilter (fst f) (snd f) p in
       push_image_filters fs' p')%alloc
  end.

(** The entries [PushImageFilter] makes for a list of filters, the first
    one at [next]. *)
Definition filter_entries (next : nat)
    (fs : list (shared_ptr DlImageFilter * DlRect))
  : list (shared_ptr Mutator) :=
  imap (fun i f => SharedPtr (next + i) (Mutator_filter (fst f) (snd f))) fs.

End Clients.

Section EmbedderClients.
Context `{!Geometry}.
Context {GrDirectContext RasterThreadMerger AiksContext SurfaceFrame
         DlISize : Type}.

(** The calls whose body, given by the base class, changes nothing. *)
Definition has_empty_body
    (c : Call GrDirectContext RasterThreadMerger AiksContext SurfaceFrame
              DlISize) : bool :=
  match c with
  | CallPostPrerollAction _ | CallEndFrame _ _ | CallGetUsedThisFrame
  | CallPushVisitedPlatformView _ | CallPushFilterToVisitedPlatformViews _ _ =>
      true
  | _ => false
  end.

(** The arguments of one frame, and frames driven one after the other. *)
Record FrameArguments : Type := MkFrameArguments {
  frame_context : option GrDirectContext;
  frame_merger : option RasterThreadMerger;
  frame_views : list (Z * EmbeddedViewParams);
  frame_subs :
    list (FlutterViewSubmission GrDirectContext AiksContext SurfaceFrame
                                DlISize);
  frame_should_resubmit : bool
}.

Definition driven_frame (f : FrameArguments)
  : list (Call GrDirectContext RasterThreadMerger AiksContext SurfaceFrame
               DlISize) :=
  driven_frame_calls (frame_context f) (frame_merger f) (frame_views f)
    (frame_subs f) (frame_should_resubmit f).

(** What [GetUsedThisFrame] answers after each call of a driven frame. *)
Definition driven_frame_flags (f : FrameArguments) : list bool :=
  [false; true]
  ++ replicate
       (length (frame_body_calls (frame_views f) (frame_merger f)
                  (frame_subs f)))
       true
  ++ [false; false].

End EmbedderClients.
Arguments FrameArguments {_} _ _ _ _ _.

(** * Properties *)

(** ** Mutator *)

Section MutatorProperties.
Context `{!Geometry}.

Lemma variant_index_in_range (d : MutatorData) :
  MutatorType_enumerators !! variant_index d
  = Some (static_cast_MutatorType (variant_index d)).
Proof. by destruct d. Qed.

Lemma ImageFilterMutation_eq_spec (a b : ImageFilterMutation) :
  ImageFilterMutation_eq a b = true
  <-> equals DlImageFilter_eq (GetFilter a) (GetFilter b) = true
      /\ equals DlRect_eq (GetFilterRect a) (GetFilterRect b) = true.
Proof. unfold ImageFilterMutation_eq. apply andb_true_iff. Qed.

Lemma ImageFilterMutation_eq_sym (a b : ImageFilterMutation) :
  ImageFilterMutation_eq a b = ImageFilterMutation_eq b a.
Proof.
  unfold ImageFilterMutation_eq.
  by rewrite (equals_sym DlImageFilter_eq), (equals_sym DlRect_eq).
Qed.

Lemma ImageFilterMutation_eq_trans (a b c : ImageFilterMutation) :
  ImageFilterMutation_eq a b = true -> ImageFilterMutation_eq b c = true ->
  ImageFilterMutation_eq a c = true.
Proof.
  rewrite !ImageFilterMutation_eq_spec. intros [? ?] [? ?].
  split; eapply equals_trans; eauto.
Qed.

Lemma variant_eq_sym (a b : MutatorData) : variant_eq a b = variant_eq b a.
Proof.
  destruct a, b; simpl; try done; try apply equals_sym.
  - by apply bool_decide_ext.
  - apply ImageFilterMutation_eq_sym.
Qed.

Lemma variant_eq_trans (a b c : MutatorData) :
  variant_eq a b = true -> variant_eq b c = true -> variant_eq a c = true.
Proof.
  destruct a, b; simpl; try done; destruct c; simpl; try done;
    try apply equals_trans.
  - rewrite !bool_decide_eq_true. congruence.
  - apply ImageFilterMutation_eq_trans.
Qed.

Lemma Mutator_eq_sym (m m' : Mutator) : Mutator_eq m m' = Mutator_eq m' m.
Proof. apply variant_eq_sym. Qed.

Lemma Mutator_eq_trans (m1 m2 m3 : Mutator) :
  Mutator_eq m1 m2 = true -> Mutator_eq m2 m3 = true ->
  Mutator_eq m1 m3 = true.
Proof. apply variant_eq_trans. Qed.

Lemma Mutator_eq_same_type (m m' : Mutator) :
  Mutator_eq m m' = true -> GetType m = GetType m'.
Proof.
  destruct m as [d], m' as [d']. unfold Mutator_eq. simpl.
  by destruct d, d'.
Qed.

(** [Mutator::operator==] answers true exactly on mutators equal as values. *)
Lemma Mutator_eq_value_equal (m m' : Mutator) :
  Mutator_eq m m' = true <-> value_equal m m'.
Proof.
  split.
  - destruct m as [d], m' as [d']. unfold Mutator_eq. simpl.
    destruct d, d'; simpl; try done; try (intros Heq; by constructor).
    + intros ->%bool_decide_eq_true. constructor.
    + intros [? ?]%ImageFilterMutation_eq_spec.
      destruct mutation as [[a f] r], mutation0 as [[a' f'] r'].
      by apply value_equal_filter.
  - destruct 1; unfold Mutator_eq; simpl; try done.
    + by apply bool_decide_eq_true.
    + by apply ImageFilterMutation_eq_spec.
Qed.

(** C3.  [GetType] returns the tag of the alternative the [Mutator] was
    constructed with; the accessor of that tag returns the payload given to
    the constructor; and on every [Mutator] an accessor returns when its tag
    is [GetType]'s and fails with [TypeMismatch] when it is not. *)
Theorem GetType_and_typed_accessors :
  (forall rect,
     GetType (Mutator_DlRect rect) = kClipRect
     /\ GetRect (Mutator_DlRect rect) = Ok rect)
  /\ (forall rrect,
        GetType (Mutator_DlRoundRect rrect) = kClipRRect
        /\ GetRRect (Mutator_DlRoundRect rrect) = Ok rrect)
  /\ (forall rse,
        GetType (Mutator_DlRoundSuperellipse rse) = kClipRSE
        /\ GetRSE (Mutator_DlRoundSuperellipse rse) = Ok rse
        /\ GetRSEApproximation (Mutator_DlRoundSuperellipse rse)
           = Ok (ToApproximateRoundRect rse))
  /\ (forall path,
        GetType (Mutator_DlPath path) = kClipPath
        /\ GetPath (Mutator_DlPath path) = Ok path)
  /\ (forall matrix,
        GetType (Mutator_DlMatrix matrix) = kTransform
        /\ GetMatrix (Mutator_DlMatrix matrix) = Ok matrix)
  /\ (forall alpha,
        GetType (Mutator_alpha alpha) = kOpacity
        /\ GetAlpha (Mutator_alpha alpha) = Ok alpha
        /\ GetAlphaFloat (Mutator_alpha alpha) = Ok (toOpacity alpha))
  /\ (forall filter filter_rect,
        GetType (Mutator_filter filter filter_rect) = kBackdropFilter
        /\ GetFilterMutation (Mutator_filter filter filter_rect)
           = Ok (MkImageFilterMutation filter filter_rect))
  /\ (forall m, GetType (Mutator_copy m) = GetType m)
  /\ (forall m a,
        invoke a m
        = if decide (accessor_tag a = GetType m) then None
          else Some TypeMismatch).
Proof.
  repeat split; try done.
  intros [d] a. destruct d, a; reflexivity.
Qed.

(** C9.  [IsClipType] is true exactly on the four clip tags, and false
    exactly on transform, opacity and backdrop filter. *)
Theorem IsClipType_iff_clip_tag (m : Mutator) :
  (IsClipType m = true
   <-> GetType m = kClipRect \/ GetType m = kClipRRect
       \/ GetType m = kClipRSE \/ GetType m = kClipPath)
  /\ (IsClipType m = false
      <-> GetType m = kTransform \/ GetType m = kOpacity
          \/ GetType m = kBackdropFilter).
Proof.
  unfold IsClipType.
  destruct (GetType m); split; split; intros; try done; auto;
    repeat match goal with H : _ \/ _ |- _ => destruct H end; done.
Qed.

End MutatorProperties.

(** ** MutatorsStack *)

Section MutatorsStackProperties.
Context `{!Geometry}.

Implicit Types (s other : MutatorsStack) (ps : list Push) (next : nat).

Lemma push_run p s next :
  push p s next
  = (MkMutatorsStack (vector_ s ++ [SharedPtr next (pushed_mutator p)]),
     S next).
Proof. by destruct p. Qed.

Lemma fresh_pointers_cons next p ps :
  fresh_pointers next (p :: ps)
  = SharedPtr next (pushed_mutator p) :: fresh_pointers (S next) ps.
Proof.
  unfold fresh_pointers. rewrite imap_cons. f_equal.
  - f_equal. lia.
  - apply imap_ext. intros i x _. simpl. f_equal. lia.
Qed.

Lemma push_all_run ps s next :
  push_all ps s next
  = (MkMutatorsStack (vector_ s ++ fresh_pointers next ps), next + length ps).
Proof.
  revert s next. induction ps as [|p ps IH]; intros s next; simpl.
  - unfold alloc_ret, fresh_pointers. simpl. rewrite app_nil_r.
    destruct s. f_equal. lia.
  - unfold alloc_bind. rewrite push_run, IH. simpl.
    rewrite fresh_pointers_cons, <- app_assoc. simpl. f_equal. lia.
Qed.

Lemma fresh_pointers_length next ps :
  length (fresh_pointers next ps) = length ps.
Proof. apply length_imap. Qed.

Lemma fresh_pointers_pointee next ps :
  pointee <$> fresh_pointers next ps = pushed_mutator <$> ps.
Proof.
  revert next. induction ps as [|p ps IH]; intros next; [done|].
  rewrite fresh_pointers_cons. simpl. by rewrite IH.
Qed.

Lemma fresh_pointers_take next ps k :
  take k (fresh_pointers next ps) = fresh_pointers next (take k ps).
Proof.
  revert next k. induction ps as [|p ps IH]; intros next [|k]; try done.
  rewrite fresh_pointers_cons. simpl. by rewrite fresh_pointers_cons, IH.
Qed.

Lemma fresh_pointers_address next ps x :
  x ∈ fresh_pointers next ps -> next <= address x < next + length ps.
Proof.
  unfold fresh_pointers. intros (i & p & -> & Hi)%elem_of_lookup_imap.
  apply lookup_lt_Some in Hi. simpl. lia.
Qed.

Lemma Pop_push_back s x : Pop (push_back x s) = Ok s.
Proof.
  unfold Pop, push_back. simpl.
  destruct (vector_ s ++ [x]) eqn:E.
  - by destruct (vector_ s).
  - rewrite <- E, removelast_last. by destruct s.
Qed.

Lemma Pop_snoc l x :
  Pop (MkMutatorsStack (l ++ [x])) = Ok (MkMutatorsStack l).
Proof. apply (Pop_push_back (MkMutatorsStack l)). Qed.

Lemma Pop_empty s : vector_ s = [] -> Pop s = Err EmptyStack.
Proof. unfold Pop. by intros ->. Qed.

Lemma Pop_nonempty s :
  vector_ s <> [] ->
  Pop s = Ok (MkMutatorsStack (take (stack_count s - 1) (vector_ s))).
Proof.
  destruct s as [v]. simpl. intros Hne.
  destruct (exists_last Hne) as (l & x & ->).
  rewrite Pop_snoc. unfold stack_count. simpl.
  rewrite length_app. simpl.
  replace (length l + 1 - 1) with (length l) by lia.
  by rewrite take_app_length.
Qed.

(** The loop of [PopTo] pops what lies above the first [n] entries. *)
Lemma PopTo_loop_above l above fuel :
  length above <= fuel ->
  PopTo_loop fuel (length l) (MkMutatorsStack (l ++ above))
  = Some (Ok (MkMutatorsStack l)).
Proof.
  revert fuel. induction above as [|x above IH] using rev_ind; intros fuel Hf.
  - rewrite app_nil_r. destruct fuel; simpl; unfold stack_count; simpl;
      by rewrite decide_True.
  - rewrite length_app in Hf. simpl in Hf.
    destruct fuel as [|fuel]; [lia|]. simpl.
    rewrite decide_False.
    2:{ unfold stack_count. simpl. rewrite !length_app. simpl. lia. }
    rewrite app_assoc, Pop_snoc. apply IH. lia.
Qed.

Lemma PopTo_take n s :
  n <= stack_count s ->
  PopTo n s = Some (Ok (MkMutatorsStack (take n (vector_ s)))).
Proof.
  intros Hn. unfold PopTo. destruct s as [v]. unfold stack_count in *.
  simpl in *.
  pose proof (PopTo_loop_above (take n v) (drop n v) (S (length v))) as Hloop.
  rewrite take_drop, length_take, Nat.min_l in Hloop by lia.
  apply Hloop. rewrite length_drop. lia.
Qed.

(** The loop does not run out of the fuel [PopTo] gives it. *)
Lemma PopTo_loop_returns fuel n s :
  stack_count s < fuel -> is_Some (PopTo_loop fuel n s).
Proof.
  revert s. induction fuel as [|fuel IH]; intros s Hf; [lia|]. simpl.
  destruct (decide (stack_count s = n)); [by eexists|].
  destruct (decide (vector_ s = [])) as [He|Hne].
  - rewrite (Pop_empty _ He). by eexists.
  - rewrite (Pop_nonempty _ Hne). apply IH.
    unfold stack_count in *. simpl. rewrite length_take.
    destruct (vector_ s); [done|]. simpl in *. lia.
Qed.

Lemma PopTo_returns n s : is_Some (PopTo n s).
Proof. apply PopTo_loop_returns. lia. Qed.

Lemma none_differs_spec (differs : nat -> bool) i n :
  none_differs differs i n = true
  <-> forall j, i <= j < i + n -> differs j = false.
Proof.
  revert i. induction n as [|n IH]; intros i; simpl.
  - split; [intros _ j ?; lia|done].
  - destruct (differs i) eqn:E.
    + split; [done|]. intros Hall. rewrite Hall in E by lia. done.
    + rewrite IH. split.
      * intros Hall j Hj. destruct (decide (j = i)) as [->|]; [done|].
        apply Hall. lia.
      * intros Hall j Hj. apply Hall. lia.
Qed.

Lemma MutatorsStack_eq_spec s other :
  MutatorsStack_eq s other = true <-> elementwise_equal s other.
Proof.
  unfold MutatorsStack_eq, elementwise_equal.
  rewrite Forall2_same_length_lookup.
  destruct (Nat.eqb_spec (length (vector_ s)) (length (vector_ other)))
    as [Hlen|Hlen]; simpl.
  - rewrite none_differs_spec. split.
    + intros Hall. split; [done|]. intros i x y Hx Hy.
      specialize (Hall i). unfold differs_at_stack in Hall. rewrite Hx, Hy in Hall.
      apply lookup_lt_Some in Hx. apply negb_false_iff, Hall. lia.
    + intros [_ Hall] j Hj. unfold differs_at_stack.
      destruct (lookup_lt_is_Some_2 (vector_ s) j) as [x Hx]; [lia|].
      destruct (lookup_lt_is_Some_2 (vector_ other) j) as [y Hy]; [lia|].
      rewrite Hx, Hy. apply negb_false_iff. eauto.
  - split; [done|]. by intros [? _].
Qed.

Lemma MutatorsStack_eq_vector_spec s (other : list Mutator) :
  MutatorsStack_eq_vector s other = true <-> elementwise_equal_vector s other.
Proof.
  unfold MutatorsStack_eq_vector, elementwise_equal_vector.
  rewrite Forall2_same_length_lookup.
  destruct (Nat.eqb_spec (length (vector_ s)) (length other))
    as [Hlen|Hlen]; simpl.
  - rewrite none_differs_spec. split.
    + intros Hall. split; [done|]. intros i x y Hx Hy.
      specialize (Hall i). unfold differs_at_vector in Hall. rewrite Hx, Hy in Hall.
      apply lookup_lt_Some in Hx. apply negb_false_iff, Hall. lia.
    + intros [_ Hall] j Hj. unfold differs_at_vector.
      destruct (lookup_lt_is_Some_2 (vector_ s) j) as [x Hx]; [lia|].
      destruct (lookup_lt_is_Some_2 other j) as [y Hy]; [lia|].
      rewrite Hx, Hy. apply negb_false_iff. eauto.
  - split; [done|]. by intros [? _].
Qed.

Lemma all_equal_spec (ms ms' : list Mutator) :
  all_equal ms ms' = true
  <-> Forall2 (fun m m' => Mutator_eq m m' = true) ms ms'.
Proof.
  revert ms'. induction ms as [|m ms IH]; intros [|m' ms']; simpl.
  - split; [constructor|done].
  - split; [done|inversion 1].
  - split; [done|inversion 1].
  - rewrite andb_true_iff, IH. split.
    + intros [? ?]. by constructor.
    + inversion 1; subst. done.
Qed.

Lemma all_equal_self (ms : list Mutator) :
  all_equal ms ms = forallb self_equal ms.
Proof. induction ms as [|m ms IH]; [done|]. simpl. by rewrite IH. Qed.

(** The two overloads compare the mutators pointed to, one after the
    other. *)
Lemma MutatorsStack_eq_as_values s other :
  MutatorsStack_eq s other
  = all_equal (pointee <$> vector_ s) (pointee <$> vector_ other).
Proof.
  apply eq_true_iff_eq.
  rewrite MutatorsStack_eq_spec, all_equal_spec. unfold elementwise_equal.
  by rewrite Forall2_fmap.
Qed.

Lemma MutatorsStack_eq_vector_as_values s (other : list Mutator) :
  MutatorsStack_eq_vector s other = all_equal (pointee <$> vector_ s) other.
Proof.
  apply eq_true_iff_eq.
  rewrite MutatorsStack_eq_vector_spec, all_equal_spec.
  unfold elementwise_equal_vector. by rewrite Forall2_fmap_l.
Qed.

Lemma MutatorsStack_eq_by_value_spec s other :
  MutatorsStack_eq s other = true <-> equal_by_value s other.
Proof.
  rewrite MutatorsStack_eq_spec. unfold elementwise_equal, equal_by_value.
  split; intros Hall; (eapply Forall2_impl; [|exact Hall]);
    intros x y; apply Mutator_eq_value_equal.
Qed.

Lemma MutatorsStack_eq_vector_by_value_spec s (other : list Mutator) :
  MutatorsStack_eq_vector s other = true <-> equal_by_value_vector s other.
Proof.
  rewrite MutatorsStack_eq_vector_spec.
  unfold elementwise_equal_vector, equal_by_value_vector.
  split; intros Hall; (eapply Forall2_impl; [|exact Hall]);
    intros x y; apply Mutator_eq_value_equal.
Qed.

Lemma pushes_vector ps next :
  vector_ (push_all ps MutatorsStack_new next).1 = fresh_pointers next ps.
Proof. by rewrite push_all_run. Qed.

Lemma pushes_pointees ps next :
  pointee <$> vector_ (push_all ps MutatorsStack_new next).1
  = pushed_mutator <$> ps.
Proof. by rewrite pushes_vector, fresh_pointers_pointee. Qed.

(** Two stacks built by the same pushes are equal exactly when every
    mutator pushed equals itself. *)
Lemma pushes_eq ps next next' :
  MutatorsStack_eq (push_all ps MutatorsStack_new next).1
                   (push_all ps MutatorsStack_new next').1
  = forallb self_equal (pushed_mutator <$> ps).
Proof.
  by rewrite MutatorsStack_eq_as_values, !pushes_pointees, all_equal_self.
Qed.

Lemma pushes_eq_vector ps next :
  MutatorsStack_eq_vector (push_all ps MutatorsStack_new next).1
                          (pushed_mutator <$> ps)
  = forallb self_equal (pushed_mutator <$> ps).
Proof.
  by rewrite MutatorsStack_eq_vector_as_values, pushes_pointees,
    all_equal_self.
Qed.

(** On a stack that already holds entries, popping to [k] entries above
    them undoes the pushes after the first [k]. *)
Lemma PopTo_after_pushes_on s ps k next :
  k <= length ps ->
  PopTo (stack_count s + k) (push_all ps s next).1
  = Some (Ok (push_all (take k ps) s next).1).
Proof.
  intros Hk. rewrite PopTo_take.
  - rewrite !push_all_run. simpl.
    unfold stack_count. by rewrite take_app_add, fresh_pointers_take.
  - rewrite push_all_run. unfold stack_count. simpl.
    rewrite length_app, fresh_pointers_length. lia.
Qed.

(** C5, as the code has it.  After the pushes [P1..Pn] on a new stack,
    [PopTo(k)] with [k <= n] returns, and leaves the stack on which only
    [P1..Pk] were pushed, of [k] entries.  [operator==] takes it for equal
    to a stack built apart by the pushes [P1..Pk] exactly when each of the
    [k] mutators equals itself. *)
Theorem PopTo_after_pushes ps k next next' :
  k <= length ps ->
  exists s',
    PopTo k (push_all ps MutatorsStack_new next).1 = Some (Ok s')
    /\ s' = (push_all (take k ps) MutatorsStack_new next).1
    /\ stack_count s' = k
    /\ pointee <$> vector_ s' = pushed_mutator <$> take k ps
    /\ MutatorsStack_eq s' (push_all (take k ps) MutatorsStack_new next').1
       = forallb self_equal (pushed_mutator <$> take k ps).
Proof.
  intros Hk. eexists. split; [|split; [|split; [|split]]].
  - apply (PopTo_after_pushes_on MutatorsStack_new ps k next Hk).
  - reflexivity.
  - unfold stack_count.
    rewrite pushes_vector, fresh_pointers_length, length_take. lia.
  - apply pushes_pointees.
  - apply pushes_eq.
Qed.

(** C7, as the code has it.  [operator==] of a stack, against a stack and
    against a plain vector of [Mutator]s, answers true exactly when both
    have the same length and hold, position by position, mutators equal as
    values: of the same kind, with payloads their own [operator==] takes for
    equal.  The addresses of the entries are never compared: a stack built
    by pushes compares to the vector of the same mutators, and to a stack
    built apart by the same pushes with which it shares no [Mutator]
    instance, as the pushed mutators compare to themselves.  A stack holding
    a clip rectangle is not equal to one holding an opacity, and stacks of
    different lengths are not equal. *)
Theorem MutatorsStack_eq_by_value :
  (forall s other,
     MutatorsStack_eq s other = true <-> equal_by_value s other)
  /\ (forall s (other : list Mutator),
        MutatorsStack_eq_vector s other = true
        <-> equal_by_value_vector s other)
  /\ (forall ps next,
        MutatorsStack_eq_vector (push_all ps MutatorsStack_new next).1
          (pushed_mutator <$> ps)
        = forallb self_equal (pushed_mutator <$> ps))
  /\ (forall ps next next',
        MutatorsStack_eq (push_all ps MutatorsStack_new next).1
                         (push_all ps MutatorsStack_new next').1
        = forallb self_equal (pushed_mutator <$> ps))
  /\ (forall ps next,
        let first := push_all ps MutatorsStack_new next in
        let second := push_all ps MutatorsStack_new first.2 in
        MutatorsStack_eq first.1 second.1
        = forallb self_equal (pushed_mutator <$> ps)
        /\ forall x y,
             x ∈ vector_ first.1 -> y ∈ vector_ second.1 ->
             address x <> address y)
  /\ (forall rect alpha next next',
        MutatorsStack_eq (push_all [ClipRect rect] MutatorsStack_new next).1
                         (push_all [Opacity alpha] MutatorsStack_new next').1
        = false
        /\ MutatorsStack_eq_vector
             (push_all [ClipRect rect] MutatorsStack_new next).1
             [Mutator_alpha alpha]
           = false)
  /\ (forall alpha alpha' next next',
        MutatorsStack_eq (push_all [Opacity alpha] MutatorsStack_new next).1
                         (push_all [Opacity alpha'] MutatorsStack_new next').1
        = bool_decide (alpha = alpha'))
  /\ (forall s other,
        stack_count s <> stack_count other ->
        MutatorsStack_eq s other = false)
  /\ (forall s (other : list Mutator),
        stack_count s <> length other ->
        MutatorsStack_eq_vector s other = false).
Proof.
  split; [exact MutatorsStack_eq_by_value_spec|].
  split; [exact MutatorsStack_eq_vector_by_value_spec|].
  split; [exact pushes_eq_vector|].
  split; [exact pushes_eq|].
  split; [|split; [|split; [|split]]].
  - intros ps next first second. split.
    + apply pushes_eq.
    + subst first second. rewrite !push_all_run. simpl.
      intros x y Hx%fresh_pointers_address Hy%fresh_pointers_address. lia.
  - intros rect alpha next next'. split; reflexivity.
  - intros alpha alpha' next next'.
    rewrite MutatorsStack_eq_as_values, !pushes_pointees. simpl.
    apply andb_true_r.
  - intros s other Hne. unfold MutatorsStack_eq, stack_count in *.
    by destruct (Nat.eqb_spec (length (vector_ s)) (length (vector_ other))).
  - intros s other Hne. unfold MutatorsStack_eq_vector, stack_count in *.
    by destruct (Nat.eqb_spec (length (vector_ s)) (length other)).
Qed.

(** C8.  [Pop] on a stack that is not empty removes its last entry, the one
    pushed most recently, and nothing else; on an empty stack it fails with
    [EmptyStack].  After the pushes ClipRect and Opacity(128), one [Pop]
    leaves the ClipRect entry alone, a second one leaves the empty stack,
    and a third one fails. *)
Theorem Pop_removes_last_or_fails :
  (forall s,
     is_empty s = false ->
     exists s' top, vector_ s = vector_ s' ++ [top] /\ Pop s = Ok s'
                    /\ stack_count s' = stack_count s - 1)
  /\ (forall p s next, Pop (push p s next).1 = Ok s)
  /\ (forall s, is_empty s = true -> Pop s = Err EmptyStack)
  /\ Pop MutatorsStack_new = Err EmptyStack
  /\ (forall rect next,
        let s := (push_all [ClipRect rect; Opacity x80] MutatorsStack_new
                    next).1 in
        exists s1 entry s0,
          Pop s = Ok s1
          /\ stack_count s1 = 1
          /\ vector_ s1 = [entry]
          /\ pointee entry = Mutator_DlRect rect
          /\ GetType (pointee entry) = kClipRect
          /\ Pop s1 = Ok s0
          /\ is_empty s0 = true
          /\ Pop s0 = Err EmptyStack).
Proof.
  split; [|split; [|split; [|split]]].
  - intros s Hne.
    assert (Hv : vector_ s <> []).
    { unfold is_empty in Hne. by destruct (vector_ s). }
    destruct (exists_last Hv) as (l & x & Hv').
    exists (MkMutatorsStack l), x. split; [done|].
    destruct s as [v]. simpl in Hv'. subst v.
    split; [apply Pop_snoc|].
    unfold stack_count. simpl. rewrite length_app. simpl. lia.
  - intros p s next. rewrite push_run. simpl.
    apply (Pop_push_back s).
  - intros s He. apply Pop_empty. unfold is_empty in He.
    by destruct (vector_ s).
  - done.
  - intros rect next s. subst s.
    eexists (MkMutatorsStack [SharedPtr next (Mutator_DlRect rect)]), _,
      MutatorsStack_new.
    repeat split.
Qed.

End MutatorsStackProperties.

(** ** EmbeddedViewParams *)

Section EmbeddedViewParamsProperties.
Context `{!Geometry}.

Lemma finalBoundingRect_new (matrix : DlMatrix) (size_points : DlSize)
    (mutators_stack : MutatorsStack) :
  finalBoundingRect (EmbeddedViewParams_new matrix size_points mutators_stack)
  = TransformAndClipBounds (MakeSize size_points) matrix.
Proof. reflexivity. Qed.

Lemma PushImageFilter_run filter filter_rect (p : EmbeddedViewParams) next :
  PushImageFilter filter filter_rect p next
  = ({| matrix_ := matrix_ p;
        size_points_ := size_points_ p;
        mutators_stack_ :=
          push_back (SharedPtr next (Mutator_filter filter filter_rect))
                    (mutators_stack_ p);
        final_bounding_rect_ := final_bounding_rect_ p |},
     S next).
Proof. reflexivity. Qed.

(** C2.  [PushImageFilter] puts one more entry on the stack the params own,
    a backdrop-filter [Mutator] holding the filter and the rectangle given,
    after the entries that were there; the bounding rectangle, the matrix
    and the size are what they were. *)
Theorem PushImageFilter_appends_one_filter
    filter filter_rect (p : EmbeddedViewParams) next :
  let p' := (PushImageFilter filter filter_rect p next).1 in
  stack_count (mutatorsStack p') = S (stack_count (mutatorsStack p))
  /\ (exists entry,
        vector_ (mutatorsStack p') = vector_ (mutatorsStack p) ++ [entry]
        /\ GetType (pointee entry) = kBackdropFilter
        /\ GetFilterMutation (pointee entry)
           = Ok (MkImageFilterMutation filter filter_rect))
  /\ finalBoundingRect p' = finalBoundingRect p
  /\ transformMatrix p' = transformMatrix p
  /\ sizePoints p' = sizePoints p.
Proof.
  intros p'. subst p'. rewrite PushImageFilter_run. simpl.
  unfold mutatorsStack, stack_count. simpl.
  split; [rewrite length_app; simpl; lia|].
  split; [|done]. by eexists.
Qed.

End EmbeddedViewParamsProperties.

(** ** ExternalViewEmbedder *)

Section EmbedderProperties.
Context `{!Geometry}.
Context {GrDirectContext RasterThreadMerger AiksContext SurfaceFrame
         DlCanvas DlISize Derived : Type}.
Context `{!EmbedderOverrides GrDirectContext RasterThreadMerger AiksContext
            SurfaceFrame DlCanvas DlISize Derived}.

Implicit Types
  (e : ExternalViewEmbedder Derived)
  (c : Call GrDirectContext RasterThreadMerger AiksContext SurfaceFrame DlISize)
  (calls : list (Call GrDirectContext RasterThreadMerger AiksContext
                      SurfaceFrame DlISize))
  (context : option GrDirectContext)
  (merger : option RasterThreadMerger)
  (views : list (Z * EmbeddedViewParams))
  (subs : list (FlutterViewSubmission GrDirectContext AiksContext
                                      SurfaceFrame DlISize)).

Lemma in_derived_returning_used {A} (f : Derived -> A * Derived) e :
  GetUsedThisFrame (snd (in_derived_returning f e)) = GetUsedThisFrame e.
Proof. unfold in_derived_returning. by destruct (f (derived_ e)). Qed.

Lemma run_call_used c e :
  GetUsedThisFrame (run_call c e)
  = match c with
    | CallSetUsedThisFrame b => b
    | _ => GetUsedThisFrame e
    end.
Proof.
  destruct c; try reflexivity; simpl;
    apply in_derived_returning_used.
Qed.

Lemma run_calls_used calls e :
  GetUsedThisFrame (run_calls calls e) = last_set (GetUsedThisFrame e) calls.
Proof.
  revert e. induction calls as [|c calls IH]; intros e; [done|].
  unfold run_calls, last_set in *. simpl. rewrite IH, run_call_used.
  by destruct c.
Qed.

Lemma run_calls_app calls calls' e :
  run_calls (calls ++ calls') e = run_calls calls' (run_calls calls e).
Proof. apply foldl_app. Qed.

Lemma used_after_each_app calls calls' e :
  used_after_each (calls ++ calls') e
  = used_after_each calls e ++ used_after_each calls' (run_calls calls e).
Proof.
  revert e. induction calls as [|c calls IH]; intros e; [done|].
  simpl. by rewrite IH.
Qed.

Lemma used_after_each_unset calls e :
  Forall (fun c => sets_flag c = false) calls ->
  used_after_each calls e = replicate (length calls) (GetUsedThisFrame e)
  /\ GetUsedThisFrame (run_calls calls e) = GetUsedThisFrame e.
Proof.
  intros Hall. revert e.
  induction Hall as [|c calls Hc _ IH]; intros e; [done|].
  assert (Hkeep : GetUsedThisFrame (run_call c e) = GetUsedThisFrame e).
  { rewrite run_call_used. by destruct c. }
  destruct (IH (run_call c e)) as [IH1 IH2].
  simpl. rewrite IH1, Hkeep. split; [done|].
  unfold run_calls in *. simpl. by rewrite IH2.
Qed.

Lemma frame_body_calls_unset views merger subs :
  Forall (fun c => sets_flag c = false) (frame_body_calls views merger subs).
Proof.
  unfold frame_body_calls, preroll_calls, submission_calls.
  rewrite !Forall_app. split; [|split].
  - apply Forall_fmap, Forall_true. done.
  - by constructor.
  - induction subs as [|sub subs IH]; [constructor|].
    rewrite bind_cons. by repeat constructor.
Qed.

(** C10.  A new embedder answers false to [GetUsedThisFrame]; after any
    calls it answers the value given to the last [SetUsedThisFrame], or what
    it answered before when there was none.  The bodies the base class
    gives to [EndFrame], [PostPrerollAction], [PushVisitedPlatformView] and
    [PushFilterToVisitedPlatformViews] return the embedder as it was, and
    [PostPrerollAction] returns [kSuccess]. *)
Theorem used_this_frame_follows_SetUsedThisFrame :
  (forall d : Derived,
     GetUsedThisFrame (ExternalViewEmbedder_new d) = false)
  /\ (forall calls (d : Derived),
        GetUsedThisFrame (run_calls calls (ExternalViewEmbedder_new d))
        = last_set false calls)
  /\ (forall calls e,
        GetUsedThisFrame (run_calls calls e)
        = last_set (GetUsedThisFrame e) calls)
  /\ (forall b e, GetUsedThisFrame (SetUsedThisFrame b e) = b)
  /\ (forall should_resubmit_frame (merger : option RasterThreadMerger) e,
        EndFrame should_resubmit_frame merger e = e)
  /\ (forall (merger : option RasterThreadMerger) e,
        PostPrerollAction merger e = (kSuccess, e))
  /\ (forall platform_view_id e,
        PushVisitedPlatformView platform_view_id e = e)
  /\ (forall filter filter_rect e,
        PushFilterToVisitedPlatformViews filter filter_rect e = e).
Proof.
  repeat split.
  - intros calls d. apply (run_calls_used calls (ExternalViewEmbedder_new d)).
  - apply run_calls_used.
Qed.


End EmbedderProperties.

(** ** The scenarios, over the rationals *)

Section RationalProperties.
Import Rational.
#[local] Existing Instance Rational.geometry.
Local Open Scope Qc_scope.

Lemma Qc_of_Z_le (z : Z) (a : Qc) :
  Qc_of_Z z <= a <-> (inject_Z z <= this a)%Q.
Proof.
  unfold Qcle, Qc_of_Z. simpl. by rewrite Qred_correct.
Qed.

Lemma Qc_le_of_Z (z : Z) (a : Qc) :
  a <= Qc_of_Z z <-> (this a <= inject_Z z)%Q.
Proof.
  unfold Qcle, Qc_of_Z. simpl. by rewrite Qred_correct.
Qed.

Lemma Qc_floor_le (a : Qc) : Qc_of_Z (Qc_floor a) <= a.
Proof. apply Qc_of_Z_le, Qfloor_le. Qed.

Lemma Qc_floor_greatest (z : Z) (a : Qc) :
  Qc_of_Z z <= a -> (z <= Qc_floor a)%Z.
Proof.
  intros Hz%Qc_of_Z_le. unfold Qc_floor.
  rewrite <- (Qfloor_Z z). by apply Qfloor_resp_le.
Qed.

Lemma Qc_le_ceiling (a : Qc) : a <= Qc_of_Z (Qc_ceiling a).
Proof. apply Qc_le_of_Z, Qle_ceiling. Qed.

Lemma Qc_ceiling_least (z : Z) (a : Qc) :
  a <= Qc_of_Z z -> (Qc_ceiling a <= z)%Z.
Proof.
  intros Hz%Qc_le_of_Z. unfold Qc_ceiling.
  rewrite <- (Qceiling_Z z). by apply Qceiling_resp_le.
Qed.

Lemma RoundOut_encloses (r : Rect) : IRect_encloses (IRect_RoundOut r) r.
Proof.
  unfold IRect_encloses. simpl.
  auto using Qc_floor_le, Qc_le_ceiling.
Qed.

Lemma RoundOut_smallest (r : Rect) (i : IRect) :
  IRect_encloses i r -> IRect_within (IRect_RoundOut r) i.
Proof.
  intros (Hl & Ht & Hr & Hb). unfold IRect_within. simpl.
  auto using Qc_floor_greatest, Qc_ceiling_least.
Qed.

Lemma IRect_contains_intersection (a b : IRect) (x y : Z) :
  IRect_contains (IRect_intersection a b) x y
  = IRect_contains a x y && IRect_contains b x y.
Proof.
  unfold IRect_contains, IRect_intersection. simpl.
  apply eq_true_iff_eq.
  rewrite !andb_true_iff, !Z.leb_le, !Z.ltb_lt. lia.
Qed.

Lemma Region_contains_intersection (a b : Region) (x y : Z) :
  Region_contains (Region_MakeIntersection a b) x y
  = Region_contains a x y && Region_contains b x y.
Proof.
  unfold Region_contains, Region_MakeIntersection.
  apply eq_true_iff_eq.
  rewrite andb_true_iff, !existsb_exists. split.
  - intros (r & Hin & Hr). apply list_elem_of_In in Hin.
    apply list_elem_of_bind in Hin as (ra & Hin & Ha).
    apply list_elem_of_bind in Hin as (rb & Hin & Hb).
    apply list_elem_of_singleton in Hin as ->.
    rewrite IRect_contains_intersection in Hr.
    apply andb_true_iff in Hr as [? ?].
    split; [exists ra|exists rb]; by rewrite <- list_elem_of_In.
  - intros [(ra & Ha & Hra) (rb & Hb & Hrb)].
    exists (IRect_intersection ra rb). split.
    + apply list_elem_of_In, list_elem_of_bind. exists ra.
      split; [|by apply list_elem_of_In].
      apply list_elem_of_bind. exists rb.
      split; [apply list_elem_of_singleton; done|by apply list_elem_of_In].
    + rewrite IRect_contains_intersection. by rewrite Hra, Hrb.
Qed.

Lemma slice_draw_all_new (view_bounds : Rect) (rects : list Rect) :
  slice_draw_all rects (DisplayListEmbedderViewSlice_new view_bounds)
  = {| builder_ := Some (MkDisplayListBuilder view_bounds rects);
       display_list_ := None |}.
Proof.
  unfold slice_draw_all, DisplayListEmbedderViewSlice_new.
  rewrite <- (app_nil_l rects) at 2. generalize (@nil Rect) as done_.
  induction rects as [|r rects IH]; intros done_; simpl.
  - by rewrite app_nil_r.
  - unfold slice_draw at 2. simpl. unfold DrawRect. simpl.
    rewrite IH, <- app_assoc. done.
Qed.

Lemma recorded_slice (view_bounds : Rect) (rects : list Rect) :
  end_recording
    (slice_draw_all rects (DisplayListEmbedderViewSlice_new view_bounds))
  = {| builder_ := None; display_list_ := Some (MkDisplayList rects) |}.
Proof. by rewrite slice_draw_all_new. Qed.

(** C1.  With any drawing primitives, the params constructed from a matrix,
    a size and a stack have for [finalBoundingRect] the rectangle
    [TransformAndClipBounds] gives for the size's rectangle and the matrix,
    set by the constructor.  Over the rationals, the translation by (10, 10)
    and the size (50, 50) give the rectangle (10, 10, 60, 60) for every
    stack, so also for the stack of the pushes ClipRect(0, 0, 100, 100) and
    Transform(translate(10, 10)), which then counts two entries. *)
Theorem finalBoundingRect_at_construction :
  (forall (G : Geometry) (matrix : @DlMatrix G) (size_points : @DlSize G)
          (mutators_stack : @MutatorsStack G),
     @finalBoundingRect G
       (@EmbeddedViewParams_new G matrix size_points mutators_stack)
     = @TransformAndClipBounds G (@MakeSize G size_points) matrix)
  /\ (forall mutators_stack : MutatorsStack,
        finalBoundingRect
          (EmbeddedViewParams_new
             (MakeTranslation (Qc_of_Z 10) (Qc_of_Z 10))
             (MkSize (Qc_of_Z 50) (Qc_of_Z 50)) mutators_stack)
        = MakeLTRB 10 10 60 60)
  /\ (forall next,
        let stack :=
          (push_all [ClipRect (MakeLTRB 0 0 100 100);
                     Transform (MakeTranslation (Qc_of_Z 10) (Qc_of_Z 10))]
                    MutatorsStack_new next).1 in
        let params :=
          EmbeddedViewParams_new (MakeTranslation (Qc_of_Z 10) (Qc_of_Z 10))
            (MkSize (Qc_of_Z 50) (Qc_of_Z 50)) stack in
        finalBoundingRect params = MakeLTRB 10 10 60 60
        /\ stack_count (mutatorsStack params) = 2%nat).
Proof.
  assert (Hrect :
    Rect_TransformAndClipBounds
      (Rect_MakeSize (MkSize (Qc_of_Z 50) (Qc_of_Z 50)))
      (MakeTranslation (Qc_of_Z 10) (Qc_of_Z 10))
    = MakeLTRB 10 10 60 60).
  { apply (bool_decide_unpack _). vm_compute. exact I. }
  split; [|split].
  - intros G matrix size_points mutators_stack.
    apply (@finalBoundingRect_new G).
  - intros mutators_stack. rewrite finalBoundingRect_new. exact Hrect.
  - intros next stack params. split.
    + subst params. rewrite finalBoundingRect_new. exact Hrect.
    + reflexivity.
Qed.

(** C4.  On any slice whose recording has a region to give, [region(Q)] is
    the intersection of that region with the region of [RoundOut(Q)]; a cell
    lies in it exactly when it lies in the recorded region and in
    [RoundOut(Q)], which encloses [Q] and lies within every integer
    rectangle that does.  A display-list slice on which [end_recording] was
    called after some drawing has such a region, and when nothing was drawn
    into it ([is_empty]) the region [region(Q)] gives is empty. *)
Theorem region_is_intersection_with_rounded_query
    (view_bounds : Rect) (rects : list Rect) (query : Rect) :
  let s :=
    end_recording
      (slice_draw_all rects (DisplayListEmbedderViewSlice_new view_bounds)) in
  (forall (Slice Canvas : Type) (I : EmbedderViewSlice Slice Canvas)
          (slice : Slice) (full : Region),
     getRegion slice = Some full ->
     region slice query
     = Some (MakeIntersection full (MakeRegion (RoundOut query))))
  /\ slice_recording_ended s = true
  /\ (exists full : Region,
        getRegion s = Some full
        /\ region s query
           = Some (MakeIntersection full (MakeRegion (RoundOut query)))
        /\ forall x y,
             Region_contains
               (MakeIntersection full (MakeRegion (RoundOut query))) x y
             = Region_contains full x y
               && IRect_contains (RoundOut query) x y)
  /\ IRect_encloses (RoundOut query) query
  /\ (forall i, IRect_encloses i query -> IRect_within (RoundOut query) i)
  /\ (slice_is_empty s = true ->
      exists empty : Region,
        region s query = Some empty
        /\ Region_isEmpty empty = true
        /\ forall x y, Region_contains empty x y = false).
Proof.
  intros s. subst s. rewrite recorded_slice.
  split; [|split; [|split; [|split; [|split]]]].
  - intros Slice Canvas I slice full Hfull. unfold region.
    by rewrite Hfull.
  - reflexivity.
  - eexists. split; [reflexivity|]. split; [reflexivity|].
    intros x y. simpl. rewrite Region_contains_intersection.
    f_equal. unfold Region_contains, Region_of_IRect. simpl.
    apply orb_false_r.
  - apply RoundOut_encloses.
  - apply RoundOut_smallest.
  - unfold slice_is_empty. simpl. intros ->%bool_decide_eq_true.
    exists []. by repeat split.
Qed.

(** C5 at three pushes, popped to one entry. *)
Lemma PopTo_after_pushes_at_three :
  let ps := [ClipRect (MakeLTRB 0 0 100 100); Opacity x80;
             Transform (MakeTranslation (Qc_of_Z 10) (Qc_of_Z 10))] in
  (1 <= length ps)%nat
  /\ exists s',
       PopTo 1 (push_all ps MutatorsStack_new 0%nat).1 = Some (Ok s')
       /\ s' = (push_all (take 1 ps) MutatorsStack_new 0%nat).1
       /\ stack_count s' = 1%nat
       /\ pointee <$> vector_ s' = pushed_mutator <$> take 1 ps
       /\ MutatorsStack_eq s' (push_all (take 1 ps) MutatorsStack_new 7%nat).1
          = forallb self_equal (pushed_mutator <$> take 1 ps).
Proof.
  intros ps. split; [simpl; lia|].
  apply (PopTo_after_pushes ps 1 0 7)%nat. simpl. lia.
Defined.


End RationalProperties.

(** ** Equality and reading of mutators *)

Section MutatorEquality.
Context `{!Geometry}.

Implicit Types (m : Mutator) (d : MutatorData) (f : ImageFilterMutation).

(** X1.  [ImageFilterMutation::operator==] does not look at the pointer a
    filter is held through: the answer is the same whatever the addresses.
    It is symmetric and transitive, two mutations it takes for equal each
    equal themselves, and [operator!=] answers the opposite. *)
Theorem ImageFilterMutation_eq_through_pointers :
  (forall (a a' b b' : nat) (filter filter' : DlImageFilter)
          (rect rect' : DlRect),
     ImageFilterMutation_eq
       (MkImageFilterMutation (SharedPtr a filter) rect)
       (MkImageFilterMutation (SharedPtr b filter') rect')
     = ImageFilterMutation_eq
         (MkImageFilterMutation (SharedPtr a' filter) rect)
         (MkImageFilterMutation (SharedPtr b' filter') rect'))
  /\ (forall f f', ImageFilterMutation_eq f f' = ImageFilterMutation_eq f' f)
  /\ (forall f1 f2 f3,
        ImageFilterMutation_eq f1 f2 = true ->
        ImageFilterMutation_eq f2 f3 = true ->
        ImageFilterMutation_eq f1 f3 = true)
  /\ (forall f f',
        ImageFilterMutation_eq f f' = true ->
        ImageFilterMutation_eq f f = true
        /\ ImageFilterMutation_eq f' f' = true)
  /\ (forall f f',
        ImageFilterMutation_neq f f' = true
        <-> ImageFilterMutation_eq f f' = false).
Proof.
  split; [reflexivity|].
  split; [exact ImageFilterMutation_eq_sym|].
  split; [exact ImageFilterMutation_eq_trans|].
  split.
  - intros f f' Heq.
    pose proof Heq as Hflip. rewrite ImageFilterMutation_eq_sym in Hflip.
    split; eapply ImageFilterMutation_eq_trans; eauto.
  - intros f f'. unfold ImageFilterMutation_neq. apply negb_true_iff.
Qed.

(** X2.  [Mutator::operator==] answers true exactly when the two mutators
    are equal as values: constructed from the same kind of payload, with
    payloads that their own [operator==] takes for equal, two alphas being
    equal when they are the same byte and the pointer a filter is held
    through not counting.  [operator!=] answers true exactly when they are
    not. *)
Theorem Mutator_eq_iff_same_value m m' :
  (Mutator_eq m m' = true <-> value_equal m m')
  /\ (Mutator_neq m m' = true <-> ~ value_equal m m').
Proof.
  split; [apply Mutator_eq_value_equal|].
  unfold Mutator_neq.
  by rewrite negb_true_iff, <- not_true_iff_false, Mutator_eq_value_equal.
Qed.

(** X3.  [Mutator::operator==] is symmetric and transitive; two mutators
    it takes for equal each equal themselves; a copy made by the copy
    constructor compares to every mutator as the original does; mutators of
    different types are not equal; [operator!=] answers the opposite of
    [operator==]. *)
Theorem Mutator_eq_symmetric_transitive :
  (forall m m', Mutator_eq m m' = Mutator_eq m' m)
  /\ (forall m1 m2 m3,
        Mutator_eq m1 m2 = true -> Mutator_eq m2 m3 = true ->
        Mutator_eq m1 m3 = true)
  /\ (forall m m',
        Mutator_eq m m' = true ->
        Mutator_eq m m = true /\ Mutator_eq m' m' = true)
  /\ (forall m m',
        Mutator_eq (Mutator_copy m) m' = Mutator_eq m m'
        /\ Mutator_eq m' (Mutator_copy m) = Mutator_eq m' m)
  /\ (forall m m', GetType m <> GetType m' -> Mutator_eq m m' = false)
  /\ (forall m m', Mutator_neq m m' = negb (Mutator_eq m m')).
Proof.
  split; [exact Mutator_eq_sym|].
  split; [exact Mutator_eq_trans|].
  split; [|split; [|split; [|done]]].
  - intros m m' Heq.
    pose proof Heq as Hflip. rewrite Mutator_eq_sym in Hflip.
    split; eapply Mutator_eq_trans; eauto.
  - intros [d] m'. done.
  - intros m m' Hty. apply not_true_iff_false.
    intros Heq%Mutator_eq_same_type. done.
Qed.

(** X4.  Two mutators that [operator==] takes for equal cannot be told
    apart through [GetType], [IsClipType] or the accessors: each accessor
    fails on both or returns on both, with payloads that the payload's own
    [operator==] takes for equal (the same byte for [GetAlpha], hence the
    same opacity for [GetAlphaFloat]; for [GetRSEApproximation] the
    approximations of equal superellipses; for [GetFilterMutation],
    payloads equal by [ImageFilterMutation::operator==]). *)
Theorem equal_mutators_read_alike m m' :
  Mutator_eq m m' = true ->
  GetType m = GetType m'
  /\ IsClipType m = IsClipType m'
  /\ results_agree (fun a b => equals DlRect_eq a b = true)
       (GetRect m) (GetRect m')
  /\ results_agree (fun a b => equals DlRoundRect_eq a b = true)
       (GetRRect m) (GetRRect m')
  /\ results_agree (fun a b => equals DlRoundSuperellipse_eq a b = true)
       (GetRSE m) (GetRSE m')
  /\ results_agree
       (fun a b =>
          exists r r',
            equals DlRoundSuperellipse_eq r r' = true
            /\ a = ToApproximateRoundRect r /\ b = ToApproximateRoundRect r')
       (GetRSEApproximation m) (GetRSEApproximation m')
  /\ results_agree (fun a b => equals DlPath_eq a b = true)
       (GetPath m) (GetPath m')
  /\ results_agree (fun a b => equals DlMatrix_eq a b = true)
       (GetMatrix m) (GetMatrix m')
  /\ GetAlpha m = GetAlpha m'
  /\ GetAlphaFloat m = GetAlphaFloat m'
  /\ results_agree (fun f f' => ImageFilterMutation_eq f f' = true)
       (GetFilterMutation m) (GetFilterMutation m').
Proof.
  destruct m as [d], m' as [d']. unfold Mutator_eq. simpl.
  destruct d, d'; simpl; try done; intros Heq; repeat split; try done.
  - by eexists _, _.
  - by apply bool_decide_eq_true in Heq as ->.
  - by apply bool_decide_eq_true in Heq as ->.
Qed.

Lemma reconstruct_run m next :
  exists m' next',
    reconstruct m next = (Ok m', next')
    /\ data_ m' = match data_ m with
                  | alt_ImageFilterMutation f =>
                      alt_ImageFilterMutation
                        (MkImageFilterMutation
                           (SharedPtr next (GetFilter f)) (GetFilterRect f))
                  | d => d
                  end.
Proof.
  destruct m as [d]. destruct d as [r|r|r|p|x|a|f];
    by eexists _, _.
Qed.

(** X5.  Reading a mutator with the accessor its [GetType] names never
    fails, and the mutator constructed from what was read has the same type
    and compares to every mutator as the original does; it is the original
    itself unless it is a backdrop filter, whose filter the reader holds
    through a pointer of its own. *)
Theorem reconstruct_gives_equal_mutator m next :
  exists m',
    (reconstruct m next).1 = Ok m'
    /\ GetType m' = GetType m
    /\ (forall other, Mutator_eq m' other = Mutator_eq m other)
    /\ (forall other, Mutator_eq other m' = Mutator_eq other m)
    /\ (GetType m <> kBackdropFilter -> m' = m).
Proof.
  destruct (reconstruct_run m next) as (m' & next' & Hrun & Hdata).
  exists m'. rewrite Hrun. split; [done|].
  destruct m as [d], m' as [d']. simpl in Hdata. subst d'.
  unfold Mutator_eq, GetType. simpl.
  destruct d as [r|r|r|p|x|a|f]; by repeat split.
Qed.

(** X6.  On every mutator exactly one of the seven accessors that read the
    alternative held returns, and [IsClipType] is true exactly when that
    one is [GetRect], [GetRRect], [GetRSE] or [GetPath]; [GetRSEApproximation]
    and [GetAlphaFloat] return exactly when [GetRSE] and [GetAlpha] do. *)
Theorem one_accessor_returns m :
  length (filter (fun a => returns a m = true) basic_accessors) = 1
  /\ IsClipType m
     = returns AGetRect m || returns AGetRRect m || returns AGetRSE m
       || returns AGetPath m
  /\ returns AGetRSEApproximation m = returns AGetRSE m
  /\ returns AGetAlphaFloat m = returns AGetAlpha m.
Proof.
  destruct m as [d]. by destruct d.
Qed.

End MutatorEquality.

(** ** Equality of mutator stacks *)

Section MutatorsStackEquality.
Context `{!Geometry}.

Implicit Types (s other : MutatorsStack) (x y : shared_ptr Mutator).

Lemma Forall2_snoc_iff {A B} (P : A -> B -> Prop) l k a b :
  Forall2 P (l ++ [a]) (k ++ [b]) <-> Forall2 P l k /\ P a b.
Proof.
  split.
  - intros Hall.
    assert (Hlen : length l = length k).
    { apply Forall2_length in Hall. rewrite !length_app in Hall.
      simpl in Hall. lia. }
    apply Forall2_app_inv in Hall; [|done].
    destruct Hall as [? Hlast]. split; [done|]. by inversion Hlast.
  - intros [? ?]. apply Forall2_app; [done|]. by constructor.
Qed.

Lemma MutatorsStack_eq_self s :
  MutatorsStack_eq s s = forallb self_equal (pointee <$> vector_ s).
Proof. by rewrite MutatorsStack_eq_as_values, all_equal_self. Qed.

Lemma MutatorsStack_eq_sym s other :
  MutatorsStack_eq s other = MutatorsStack_eq other s.
Proof.
  assert (Hflip : forall a b,
            elementwise_equal a b -> elementwise_equal b a).
  { unfold elementwise_equal. intros a b Hall.
    induction Hall; constructor; [by rewrite Mutator_eq_sym|done]. }
  apply eq_true_iff_eq. rewrite !MutatorsStack_eq_spec.
  split; apply Hflip.
Qed.

Lemma MutatorsStack_eq_trans s1 s2 s3 :
  MutatorsStack_eq s1 s2 = true -> MutatorsStack_eq s2 s3 = true ->
  MutatorsStack_eq s1 s3 = true.
Proof.
  rewrite !MutatorsStack_eq_spec. unfold elementwise_equal.
  intros H12 H23. eapply Forall2_trans; [|exact H12|exact H23].
  intros x y z. apply Mutator_eq_trans.
Qed.

Lemma MutatorsStack_eq_same_count s other :
  MutatorsStack_eq s other = true -> stack_count s = stack_count other.
Proof.
  intros Heq%MutatorsStack_eq_spec. by apply Forall2_length in Heq.
Qed.

Lemma MutatorsStack_eq_push_back s other x y :
  MutatorsStack_eq (push_back x s) (push_back y other)
  = MutatorsStack_eq s other && Mutator_eq (pointee x) (pointee y).
Proof.
  apply eq_true_iff_eq.
  rewrite andb_true_iff, !MutatorsStack_eq_spec.
  unfold elementwise_equal, push_back. simpl.
  apply (Forall2_snoc_iff
           (fun a b => Mutator_eq (pointee a) (pointee b) = true)).
Qed.

(** X7.  [MutatorsStack::operator==] is symmetric and transitive; a stack
    equals itself exactly when each of its mutators equals itself, and two
    stacks it takes for equal each equal themselves; [operator!=] answers
    the opposite. *)
Theorem MutatorsStack_eq_symmetric_transitive :
  (forall s other, MutatorsStack_eq s other = MutatorsStack_eq other s)
  /\ (forall s1 s2 s3,
        MutatorsStack_eq s1 s2 = true -> MutatorsStack_eq s2 s3 = true ->
        MutatorsStack_eq s1 s3 = true)
  /\ (forall s,
        MutatorsStack_eq s s = forallb self_equal (pointee <$> vector_ s))
  /\ (forall s other,
        MutatorsStack_eq s other = true ->
        MutatorsStack_eq s s = true /\ MutatorsStack_eq other other = true)
  /\ (forall s other,
        MutatorsStack_neq s other = true <-> MutatorsStack_eq s other = false).
Proof.
  split; [exact MutatorsStack_eq_sym|].
  split; [exact MutatorsStack_eq_trans|].
  split; [exact MutatorsStack_eq_self|].
  split.
  - intros s other Heq.
    pose proof Heq as Hflip. rewrite MutatorsStack_eq_sym in Hflip.
    split; eapply MutatorsStack_eq_trans; eauto.
  - intros s other. unfold MutatorsStack_neq. apply negb_true_iff.
Qed.

(** X8.  The two overloads of [operator==] agree: a stack compares to
    another stack as it compares to the plain vector of the mutators the
    other stack points to, and to the vector of its own mutators as it
    compares to itself. *)
Theorem MutatorsStack_eq_overloads_agree s other :
  MutatorsStack_eq s other
  = MutatorsStack_eq_vector s (pointee <$> vector_ other)
  /\ MutatorsStack_neq s other
     = MutatorsStack_neq_vector s (pointee <$> vector_ other)
  /\ MutatorsStack_eq_vector s (pointee <$> vector_ s)
     = MutatorsStack_eq s s.
Proof.
  assert (Hagree : forall s other,
            MutatorsStack_eq s other
            = MutatorsStack_eq_vector s (pointee <$> vector_ other)).
  { intros a b.
    by rewrite MutatorsStack_eq_as_values, MutatorsStack_eq_vector_as_values. }
  split; [apply Hagree|]. split.
  - unfold MutatorsStack_neq, MutatorsStack_neq_vector. by rewrite Hagree.
  - by rewrite Hagree.
Qed.

(** X9.  A stack equals the default-constructed stack, and the empty
    vector, exactly when [is_empty] is true, which is when [stack_count]
    is zero. *)
Theorem MutatorsStack_eq_empty s :
  MutatorsStack_eq s MutatorsStack_new = is_empty s
  /\ MutatorsStack_eq MutatorsStack_new s = is_empty s
  /\ MutatorsStack_eq_vector s [] = is_empty s
  /\ (is_empty s = true <-> stack_count s = 0).
Proof.
  destruct s as [[|x v]]; by repeat split.
Qed.

(** X10.  Two stacks that each got one more entry are equal exactly when
    they were equal before and the two new entries are equal mutators; a
    stack with one more entry is not equal to the stack it was. *)
Theorem MutatorsStack_eq_after_push_back s other x y :
  MutatorsStack_eq (push_back x s) (push_back y other)
  = MutatorsStack_eq s other && Mutator_eq (pointee x) (pointee y)
  /\ MutatorsStack_eq (push_back x s) s = false
  /\ MutatorsStack_eq s (push_back x s) = false.
Proof.
  split; [apply MutatorsStack_eq_push_back|].
  assert (Hgrown : MutatorsStack_eq (push_back x s) s = false).
  { apply not_true_iff_false. intros Heq%MutatorsStack_eq_same_count.
    unfold stack_count, push_back in Heq. simpl in Heq.
    rewrite length_app in Heq. simpl in Heq. lia. }
  split; [exact Hgrown|]. by rewrite MutatorsStack_eq_sym.
Qed.

(** X11.  Two stacks that [operator==] takes for equal have the same
    [stack_count] and [is_empty], hold mutators of the same types in the
    same order, and compare alike to every third stack. *)
Theorem equal_stacks_look_alike s other :
  MutatorsStack_eq s other = true ->
  stack_count s = stack_count other
  /\ is_empty s = is_empty other
  /\ stack_types s = stack_types other
  /\ (forall third,
        MutatorsStack_eq s third = MutatorsStack_eq other third).
Proof.
  intros Heq. pose proof (MutatorsStack_eq_same_count _ _ Heq) as Hcount.
  split; [done|]. split; [|split].
  - unfold stack_count in Hcount. unfold is_empty.
    destruct (vector_ s), (vector_ other); done.
  - apply MutatorsStack_eq_spec in Heq. unfold stack_types.
    induction Heq as [|x y v w Hxy _ IH]; [done|].
    by rewrite !fmap_cons, IH, (Mutator_eq_same_type _ _ Hxy).
  - intros third. apply eq_true_iff_eq. split; intros Hthird.
    + apply (MutatorsStack_eq_trans other s third); [|done].
      by rewrite MutatorsStack_eq_sym.
    + by apply (MutatorsStack_eq_trans s other third).
Qed.

End MutatorsStackEquality.

(** ** Equality and construction of embedded view params *)

Section EmbeddedViewParamsEquality.
Context `{!Geometry}.

Implicit Types (p q : EmbeddedViewParams) (st : MutatorsStack).

Lemma EmbeddedViewParams_eq_spec p q :
  EmbeddedViewParams_eq p q = true
  <-> equals DlSize_eq (sizePoints p) (sizePoints q) = true
      /\ MutatorsStack_eq (mutatorsStack p) (mutatorsStack q) = true
      /\ equals DlRect_eq (finalBoundingRect p) (finalBoundingRect q) = true
      /\ equals DlMatrix_eq (transformMatrix p) (transformMatrix q) = true.
Proof.
  unfold EmbeddedViewParams_eq, sizePoints, mutatorsStack, finalBoundingRect,
    transformMatrix.
  rewrite !andb_true_iff. tauto.
Qed.

Lemma EmbeddedViewParams_eq_sym p q :
  EmbeddedViewParams_eq p q = EmbeddedViewParams_eq q p.
Proof.
  unfold EmbeddedViewParams_eq.
  by rewrite (equals_sym DlSize_eq), (equals_sym DlRect_eq),
    (equals_sym DlMatrix_eq), (MutatorsStack_eq_sym (mutators_stack_ p)).
Qed.

Lemma EmbeddedViewParams_eq_trans p1 p2 p3 :
  EmbeddedViewParams_eq p1 p2 = true -> EmbeddedViewParams_eq p2 p3 = true ->
  EmbeddedViewParams_eq p1 p3 = true.
Proof.
  rewrite !EmbeddedViewParams_eq_spec.
  intros (? & H12 & ? & ?) (? & H23 & ? & ?).
  split; [|split; [|split]]; try (eapply equals_trans; eauto).
  exact (MutatorsStack_eq_trans _ _ _ H12 H23).
Qed.

(** X12.  [EmbeddedViewParams::operator==] is symmetric and transitive;
    two params it takes for equal each equal themselves, have equal stacks
    of the same [stack_count], and compare alike to every third params;
    params of which the stacks differ in length are not equal. *)
Theorem EmbeddedViewParams_eq_symmetric_transitive :
  (forall p q, EmbeddedViewParams_eq p q = EmbeddedViewParams_eq q p)
  /\ (forall p1 p2 p3,
        EmbeddedViewParams_eq p1 p2 = true ->
        EmbeddedViewParams_eq p2 p3 = true ->
        EmbeddedViewParams_eq p1 p3 = true)
  /\ (forall p q,
        EmbeddedViewParams_eq p q = true ->
        EmbeddedViewParams_eq p p = true
        /\ EmbeddedViewParams_eq q q = true
        /\ MutatorsStack_eq (mutatorsStack p) (mutatorsStack q) = true
        /\ stack_count (mutatorsStack p) = stack_count (mutatorsStack q)
        /\ forall third,
             EmbeddedViewParams_eq p third = EmbeddedViewParams_eq q third)
  /\ (forall p q,
        stack_count (mutatorsStack p) <> stack_count (mutatorsStack q) ->
        EmbeddedViewParams_eq p q = false).
Proof.
  split; [exact EmbeddedViewParams_eq_sym|].
  split; [exact EmbeddedViewParams_eq_trans|].
  split.
  - intros p q Heq.
    pose proof Heq as Hflip. rewrite EmbeddedViewParams_eq_sym in Hflip.
    pose proof (proj1 (EmbeddedViewParams_eq_spec p q) Heq)
      as (_ & Hstack & _).
    split; [eapply EmbeddedViewParams_eq_trans; eauto|].
    split; [eapply EmbeddedViewParams_eq_trans; eauto|].
    split; [done|]. split; [by apply MutatorsStack_eq_same_count|].
    intros third. apply eq_true_iff_eq. split; intros Hthird;
      eapply EmbeddedViewParams_eq_trans; eauto.
  - intros p q Hne. apply not_true_iff_false.
    intros (_ & Hstack%MutatorsStack_eq_same_count & _)
      %EmbeddedViewParams_eq_spec.
    done.
Qed.

Lemma filter_entries_cons next f fs :
  filter_entries next (f :: fs)
  = SharedPtr next (Mutator_filter (fst f) (snd f))
    :: filter_entries (S next) fs.
Proof.
  unfold filter_entries. rewrite imap_cons. f_equal.
  - f_equal. lia.
  - apply imap_ext. intros i x _. simpl. f_equal. lia.
Qed.

Lemma filter_entries_pointee next fs :
  pointee <$> filter_entries next fs
  = (fun f => Mutator_filter (fst f) (snd f)) <$> fs.
Proof.
  revert next. induction fs as [|f fs IH]; intros next; [done|].
  by rewrite filter_entries_cons, !fmap_cons, IH.
Qed.

Lemma filter_entries_types next fs :
  (fun entry => GetType (pointee entry)) <$> filter_entries next fs
  = replicate (length fs) kBackdropFilter.
Proof.
  revert next. induction fs as [|f fs IH]; intros next; [done|].
  by rewrite filter_entries_cons, fmap_cons, IH.
Qed.

Lemma push_image_filters_run fs p next :
  push_image_filters fs p next
  = ({| matrix_ := matrix_ p;
        size_points_ := size_points_ p;
        mutators_stack_ :=
          MkMutatorsStack
            (vector_ (mutators_stack_ p) ++ filter_entries next fs);
        final_bounding_rect_ := final_bounding_rect_ p |},
     next + length fs).
Proof.
  revert p next. induction fs as [|f fs IH]; intros p next; simpl.
  - unfold alloc_ret, filter_entries. simpl. rewrite app_nil_r.
    destruct p as [? ? [?] ?]. simpl. f_equal. lia.
  - unfold alloc_bind. rewrite PushImageFilter_run, IH. simpl.
    rewrite filter_entries_cons, <- app_assoc. simpl. f_equal. lia.
Qed.

(** X14.  Params made by the constructor keep, through any number of
    [PushImageFilter] calls, the matrix and the size they were given and the
    bounding rectangle [TransformAndClipBounds] gave for them; the stack is
    the one given with one backdrop-filter entry for each call after it, in
    the order of the calls. *)
Theorem params_after_image_filters
    (matrix : DlMatrix) (size_points : DlSize) st
    (fs : list (shared_ptr DlImageFilter * DlRect)) next :
  let p :=
    (push_image_filters fs (EmbeddedViewParams_new matrix size_points st)
       next).1 in
  transformMatrix p = matrix
  /\ sizePoints p = size_points
  /\ finalBoundingRect p
     = TransformAndClipBounds (MakeSize (sizePoints p)) (transformMatrix p)
  /\ stack_count (mutatorsStack p) = stack_count st + length fs
  /\ pointee <$> vector_ (mutatorsStack p)
     = (pointee <$> vector_ st)
       ++ ((fun f => Mutator_filter (fst f) (snd f)) <$> fs)
  /\ stack_types (mutatorsStack p)
     = stack_types st ++ replicate (length fs) kBackdropFilter.
Proof.
  intros p. subst p. rewrite push_image_filters_run. simpl.
  unfold mutatorsStack, stack_count, stack_types. simpl.
  repeat split.
  - rewrite length_app. unfold filter_entries. by rewrite length_imap.
  - by rewrite fmap_app, filter_entries_pointee.
  - by rewrite fmap_app, filter_entries_types.
Qed.

(** X15.  After [PushImageFilter] the params are no longer equal to what
    they were.  Two params that each got a filter pushed are equal exactly
    when they were equal before and the two filters and rectangles are the
    equal by their own [operator==], whatever pointers the filters are held
    through. *)
Theorem params_eq_after_PushImageFilter p q
    (filter filter' : shared_ptr DlImageFilter) (rect rect' : DlRect)
    next next' :
  EmbeddedViewParams_eq (PushImageFilter filter rect p next).1 p = false
  /\ EmbeddedViewParams_eq (PushImageFilter filter rect p next).1
                           (PushImageFilter filter' rect' q next').1
     = EmbeddedViewParams_eq p q
       && equals DlImageFilter_eq (pointee filter) (pointee filter')
       && equals DlRect_eq rect rect'.
Proof.
  rewrite !PushImageFilter_run. simpl. split.
  - apply not_true_iff_false. rewrite EmbeddedViewParams_eq_spec.
    unfold mutatorsStack. simpl.
    intros (_ & Heq%MutatorsStack_eq_same_count & _).
    unfold stack_count, push_back in Heq. simpl in Heq.
    rewrite length_app in Heq. simpl in Heq. lia.
  - unfold EmbeddedViewParams_eq. simpl.
    rewrite MutatorsStack_eq_push_back.
    unfold Mutator_eq, Mutator_filter. simpl.
    unfold ImageFilterMutation_eq. simpl.
    repeat match goal with
           | |- context [equals ?c ?a ?b] => destruct (equals c a b)
           | |- context [MutatorsStack_eq ?a ?b] =>
               destruct (MutatorsStack_eq a b)
           end; reflexivity.
Qed.

End EmbeddedViewParamsEquality.

(** ** More on the embedder's flag *)

Section EmbedderSequences.
Context `{!Geometry}.
Context {GrDirectContext RasterThreadMerger AiksContext SurfaceFrame
         DlCanvas DlISize Derived : Type}.
Context `{!EmbedderOverrides GrDirectContext RasterThreadMerger AiksContext
            SurfaceFrame DlCanvas DlISize Derived}.

Implicit Types
  (e : ExternalViewEmbedder Derived)
  (c : Call GrDirectContext RasterThreadMerger AiksContext SurfaceFrame DlISize)
  (calls : list (Call GrDirectContext RasterThreadMerger AiksContext
                      SurfaceFrame DlISize))
  (f : FrameArguments GrDirectContext RasterThreadMerger AiksContext
                      SurfaceFrame DlISize)
  (fs : list (FrameArguments GrDirectContext RasterThreadMerger AiksContext
                             SurfaceFrame DlISize)).

Lemma run_call_empty_body c e : has_empty_body c = true -> run_call c e = e.
Proof. by destruct c. Qed.

(** X16.  Calls of [PostPrerollAction], [EndFrame], [GetUsedThisFrame],
    [PushVisitedPlatformView] and [PushFilterToVisitedPlatformViews], in any
    number and order, leave an embedder that keeps the bodies of the base
    class as it was, flag and all, and every [PostPrerollAction] among them
    answers [kSuccess]. *)
Theorem calls_with_empty_bodies_change_nothing calls e :
  forallb has_empty_body calls = true ->
  run_calls calls e = e
  /\ used_after_each calls e = replicate (length calls) (GetUsedThisFrame e)
  /\ forall (merger : option RasterThreadMerger),
       (PostPrerollAction merger (run_calls calls e)).1 = kSuccess.
Proof.
  intros Hall.
  assert (Hsame : forall e', run_calls calls e' = e'
            /\ used_after_each calls e'
               = replicate (length calls) (GetUsedThisFrame e')).
  { induction calls as [|c calls IH]; intros e'; [done|].
    simpl in Hall. apply andb_true_iff in Hall as [Hc Hall].
    destruct (IH Hall e') as [IH1 IH2].
    unfold run_calls in *. simpl.
    rewrite (run_call_empty_body c e' Hc), IH1, IH2. done. }
  destruct (Hsame e) as [-> ->]. done.
Qed.

Lemma driven_frame_from e f :
  used_after_each (driven_frame f) e
  = [GetUsedThisFrame e; true]
    ++ replicate
         (length (frame_body_calls (frame_views f) (frame_merger f)
                    (frame_subs f)))
         true
    ++ [false; false]
  /\ GetUsedThisFrame (run_calls (driven_frame f) e) = false.
Proof.
  unfold driven_frame, driven_frame_calls. split.
  - rewrite !used_after_each_app.
    destruct (used_after_each_unset
                (frame_body_calls (frame_views f) (frame_merger f)
                   (frame_subs f))
                (run_calls [CallBeginFrame (frame_context f) (frame_merger f);
                            CallSetUsedThisFrame true] e)
                (frame_body_calls_unset _ _ _))
      as [-> _].
    reflexivity.
  - rewrite run_calls_used. unfold last_set. rewrite !foldl_app. reflexivity.
Qed.


End EmbedderSequences.

(** ** Instances over the rationals *)

Section RationalInstances.
Import Rational.
#[local] Existing Instance Rational.geometry.
Local Open Scope Qc_scope.

(** X4 at two backdrop filters that hold the same blur through two
    pointers. *)
Lemma equal_mutators_read_alike_at_blur :
  let m := Mutator_filter (SharedPtr 0%nat (BlurFilter 1 1))
                          (MakeLTRB 0 0 10 10) in
  let m' := Mutator_filter (SharedPtr 5%nat (BlurFilter 1 1))
                           (MakeLTRB 0 0 10 10) in
  Mutator_eq m m' = true
  /\ GetType m = GetType m'
  /\ IsClipType m = IsClipType m'
  /\ results_agree (fun a b => equals DlRect_eq a b = true)
       (GetRect m) (GetRect m')
  /\ results_agree (fun a b => equals DlRoundRect_eq a b = true)
       (GetRRect m) (GetRRect m')
  /\ results_agree (fun a b => equals DlRoundSuperellipse_eq a b = true)
       (GetRSE m) (GetRSE m')
  /\ results_agree
       (fun a b =>
          exists r r',
            equals DlRoundSuperellipse_eq r r' = true
            /\ a = ToApproximateRoundRect r /\ b = ToApproximateRoundRect r')
       (GetRSEApproximation m) (GetRSEApproximation m')
  /\ results_agree (fun a b => equals DlPath_eq a b = true)
       (GetPath m) (GetPath m')
  /\ results_agree (fun a b => equals DlMatrix_eq a b = true)
       (GetMatrix m) (GetMatrix m')
  /\ GetAlpha m = GetAlpha m'
  /\ GetAlphaFloat m = GetAlphaFloat m'
  /\ results_agree (fun f f' => ImageFilterMutation_eq f f' = true)
       (GetFilterMutation m) (GetFilterMutation m').
Proof.
  intros m m'.
  assert (Heq : Mutator_eq m m' = true) by (vm_compute; reflexivity).
  split; [exact Heq|]. exact (equal_mutators_read_alike m m' Heq).
Defined.

(** X11 at two stacks built apart by the same three pushes. *)
Lemma equal_stacks_look_alike_at_three :
  let ps := [ClipRect (MakeLTRB 0 0 100 100); Opacity x80;
             Transform (MakeTranslation (Qc_of_Z 10) (Qc_of_Z 10))] in
  let s := (push_all ps MutatorsStack_new 0%nat).1 in
  let other := (push_all ps MutatorsStack_new 3%nat).1 in
  MutatorsStack_eq s other = true
  /\ stack_count s = stack_count other
  /\ is_empty s = is_empty other
  /\ stack_types s = stack_types other
  /\ (forall third,
        MutatorsStack_eq s third = MutatorsStack_eq other third).
Proof.
  intros ps s other.
  assert (Heq : MutatorsStack_eq s other = true) by (vm_compute; reflexivity).
  split; [exact Heq|]. exact (equal_stacks_look_alike s other Heq).
Defined.

(** X16 at four calls on an embedder whose flag is set. *)
Lemma calls_with_empty_bodies_at_four :
  let calls : list (Call unit unit unit unit unit) :=
    [CallPostPrerollAction None; CallEndFrame false None;
     CallPushVisitedPlatformView 7; CallGetUsedThisFrame] in
  let e := SetUsedThisFrame true (ExternalViewEmbedder_new tt) in
  forallb has_empty_body calls = true
  /\ run_calls (overrides := idle_overrides) calls e = e
  /\ used_after_each (overrides := idle_overrides) calls e
     = replicate (length calls) (GetUsedThisFrame e)
  /\ forall merger : option unit,
       (PostPrerollAction merger
          (run_calls (overrides := idle_overrides) calls e)).1
       = kSuccess.
Proof.
  intros calls e. split; [reflexivity|].
  exact (calls_with_empty_bodies_change_nothing
           (EmbedderOverrides0 := idle_overrides) calls e eq_refl).
Defined.

End RationalInstances.

(** ** A rectangle that holds a coordinate that is not a number *)

Section NotANumberInstances.
Import Rational NotANumber.
#[local] Existing Instance NotANumber.geometry.

(** C5 as it is stated fails: after the push of a clip rectangle that holds
    a coordinate that is not a number, [PopTo(1)] returns the stack of that
    one push, and [operator==] does not take it for equal to a stack on
    which the same push was made. *)
Lemma PopTo_after_push_of_NaN_not_equal :
  exists s',
    PopTo 1 (push_all [ClipRect NaNRect] MutatorsStack_new 0).1 = Some (Ok s')
    /\ stack_count s' = 1
    /\ MutatorsStack_eq s'
         (push_all (take 1 [ClipRect NaNRect]) MutatorsStack_new 1).1
       = false
    /\ MutatorsStack_eq s'
         (push_all (take 1 [ClipRect NaNRect]) MutatorsStack_new 0).1
       = false.
Proof. eexists. by repeat split. Qed.

(** C7 as it is stated fails: two stacks built by the same push of a clip
    rectangle that holds a coordinate that is not a number are not equal,
    the stack is not equal to the vector of the mutator pushed, and not
    even to itself. *)
Lemma stacks_of_NaN_not_equal :
  let ps := [ClipRect NaNRect] in
  let s := (push_all ps MutatorsStack_new 0).1 in
  let other := (push_all ps MutatorsStack_new 1).1 in
  MutatorsStack_eq s other = false
  /\ MutatorsStack_eq_vector s (pushed_mutator <$> ps) = false
  /\ MutatorsStack_eq s s = false.
Proof. by repeat split. Qed.

End NotANumberInstances.
